(** * torchsample.transforms.tensor_transforms: a shallow embedding

    The transforms of [tensor_transforms.py] are callables [t(x, y=None)]
    over tensors.  The tensor library and the random module are external
    collaborators; they are modelled here by

    - nested lists of rationals for tensors (Python floats are idealised
      as exact rationals, kept in lowest terms so that Leibniz equality is
      numeric equality);
    - a small monad [M] whose computations either return, raise a Python
      exception, or ask the random source for one draw
      ([random.randint] or [th.randperm]).  A draw is a node of the
      computation tree, so the number of draws of a call and what is done
      with each answer can be read off the tree.  The uniform floats of
      [random.random], which only [RandomFlip] uses, are read from a
      stream that is passed to the call;
    - state that outlives a call (the counter and the files of [ToFile])
      passed in and handed back beside the result. *)

From Stdlib Require Import String Ascii DecimalString DecimalNat.
From Stdlib Require Import List ZArith QArith Qround Bool Lia Lqa Permutation.
Import ListNotations.
Local Open Scope Z_scope.
#[local] Set Warnings "-register-all".

(** ** Python exceptions and the computation monad *)

Inductive exn : Type :=
| TypeError | ValueError | IndexError | AttributeError
| RuntimeError | ZeroDivisionError | UnboundLocalError.

Inductive result (A : Type) : Type :=
| Ok (a : A)
| Err (e : exn).
Arguments Ok {A} a.
Arguments Err {A} e.

Inductive M (A : Type) : Type :=
| Ret (a : A)
| Raise (e : exn)
| RandInt (lo hi : Z) (k : Z -> M A)
| RandPerm (n : nat) (k : list nat -> M A).
Arguments Ret {A} a.
Arguments Raise {A} e.
Arguments RandInt {A} lo hi k.
Arguments RandPerm {A} n k.

Fixpoint bind {A B : Type} (m : M A) (f : A -> M B) : M B :=
  match m with
  | Ret a => f a
  | Raise e => Raise e
  | RandInt lo hi k => RandInt lo hi (fun v => bind (k v) f)
  | RandPerm n k => RandPerm n (fun p => bind (k p) f)
  end.

Declare Scope py_scope.
Delimit Scope py_scope with py.
Notation "x <- c1 ;; c2" := (bind c1 (fun x => c2))
  (at level 100, c1 at next level, right associativity) : py_scope.
Notation "' pat <- c1 ;; c2" := (bind c1 (fun x => match x with pat => c2 end))
  (at level 100, pat pattern, c1 at next level, right associativity) : py_scope.
Local Open Scope py_scope.

(** Two computations are the same tree when they agree node by node, the
    continuations being compared pointwise. *)
Fixpoint Meq {A : Type} (m1 m2 : M A) : Prop :=
  match m1, m2 with
  | Ret a, Ret b => a = b
  | Raise e, Raise e' => e = e'
  | RandInt lo hi k, RandInt lo' hi' k' =>
      lo = lo' /\ hi = hi' /\ forall v, Meq (k v) (k' v)
  | RandPerm n k, RandPerm n' k' => n = n' /\ forall p, Meq (k p) (k' p)
  | _, _ => False
  end.

(** [random.randint(a, b)]: a uniform integer of the inclusive range, a
    [ValueError] when the range is empty. *)
Definition randint (lo hi : Z) : M Z :=
  if hi <? lo then Raise ValueError else RandInt lo hi Ret.

(** [th.randperm(n)]: a uniform permutation of [0 .. n-1]. *)
Definition randperm (n : nat) : M (list nat) := RandPerm n Ret.

(** *** The random source: every answer once *)

Definition zrange (lo hi : Z) : list Z :=
  map (fun i => lo + Z.of_nat i) (seq 0 (Z.to_nat (hi - lo + 1))).

Fixpoint insert_everywhere (a : nat) (l : list nat) : list (list nat) :=
  match l with
  | [] => [[a]]
  | b :: l' => (a :: l) :: map (cons b) (insert_everywhere a l')
  end.

Fixpoint perms_of (l : list nat) : list (list nat) :=
  match l with
  | [] => [[]]
  | a :: l' => flat_map (insert_everywhere a) (perms_of l')
  end.

Definition perms (n : nat) : list (list nat) := perms_of (seq 0 n).

(** The outcomes of a computation, one per way the random source can
    answer its draws; all of them are equally likely. *)
Fixpoint outcomes {A : Type} (m : M A) : list (result A) :=
  match m with
  | Ret a => [Ok a]
  | Raise e => [Err e]
  | RandInt lo hi k => flat_map (fun v => outcomes (k v)) (zrange lo hi)
  | RandPerm n k => flat_map (fun p => outcomes (k p)) (perms n)
  end.

(** The number of draws along the path chosen by the answers [ans] (an
    integer answer for [RandInt], a list for [RandPerm]). *)
Inductive answer : Type :=
| AInt (v : Z)
| APerm (p : list nat).

Fixpoint draws {A : Type} (m : M A) (ans : list answer) : nat :=
  match m, ans with
  | RandInt _ _ k, AInt v :: ans' => S (draws (k v) ans')
  | RandPerm _ k, APerm p :: ans' => S (draws (k p) ans')
  | _, _ => O
  end.

(** ** Tensors *)

Inductive tensor : Type :=
| Scalar (v : Q)
| Node (items : list tensor).

Fixpoint shape (t : tensor) : list nat :=
  match t with
  | Scalar _ => []
  | Node l => length l :: match l with [] => [] | c :: _ => shape c end
  end.

(** [x.dim()] *)
Definition dim (t : tensor) : nat := length (shape t).

(** [x.size(k)] for a non-negative axis [k] *)
Definition size (t : tensor) (k : nat) : M Z :=
  match nth_error (shape t) k with
  | Some n => Ret (Z.of_nat n)
  | None => Raise IndexError
  end.

Fixpoint flatten (t : tensor) : list Q :=
  match t with
  | Scalar v => [v]
  | Node l => flat_map flatten l
  end.

Fixpoint tmap (f : Q -> Q) (t : tensor) : tensor :=
  match t with
  | Scalar v => Scalar (f v)
  | Node l => Node (map (tmap f) l)
  end.

(** Python's half-open slice [l[lo:hi]]: a negative bound counts from the
    end, and bounds are clamped to the length. *)
Definition norm_index (n i : Z) : Z :=
  Z.max 0 (Z.min n (if i <? 0 then i + n else i)).

Definition pyslice {A : Type} (lo hi : Z) (l : list A) : list A :=
  let n := Z.of_nat (length l) in
  let a := norm_index n lo in
  let b := norm_index n hi in
  firstn (Z.to_nat (b - a)) (skipn (Z.to_nat a) l).

(** The slice [lo:hi] taken along axis [k], every other axis kept whole. *)
Fixpoint slice_axis (k : nat) (lo hi : Z) (t : tensor) : tensor :=
  match t with
  | Scalar v => Scalar v
  | Node l =>
      match k with
      | O => Node (pyslice lo hi l)
      | S k' => Node (map (slice_axis k' lo hi) l)
      end
  end.

(** [t[:, a:b, c:d]]; indexing more axes than the tensor has raises. *)
Definition getitem3 (t : tensor) (a b c d : Z) : M tensor :=
  if (dim t <? 3)%nat then Raise IndexError
  else Ret (slice_axis 2 c d (slice_axis 1 a b t)).

Fixpoint select_all {A : Type} (l : list A) (order : list nat) : M (list A) :=
  match order with
  | [] => Ret []
  | i :: order' =>
      match nth_error l i with
      | None => Raise RuntimeError
      | Some a => rest <- select_all l order';; Ret (a :: rest)
      end
  end.

(** [t.index_select(0, order)] *)
Definition index_select0 (order : list nat) (t : tensor) : M tensor :=
  match t with
  | Scalar _ => Raise RuntimeError
  | Node l => sel <- select_all l order;; Ret (Node sel)
  end.

(** ** Python values flowing through a pipeline *)

Inductive pyval : Type :=
| PNone
| PTensor (t : tensor)
| PPair (a b : pyval).

Definition is_none (v : pyval) : bool :=
  match v with PNone => true | _ => false end.

(** A transform unit is a callable [t(x)] or [t(x, y)]; the second
    argument is [None] when the caller passes one argument only. *)
Definition transform : Type := pyval -> option pyval -> M pyval.

(** A unit declared [def __call__(self, x, y=None)]. *)
Definition with_default (f : pyval -> pyval -> M pyval) : transform :=
  fun x oy => f x (match oy with Some y => y | None => PNone end).

(** A unit declared [def __call__(self, x, y)]: calling it with one
    argument is a [TypeError]. *)
Definition without_default (f : pyval -> pyval -> M pyval) : transform :=
  fun x oy => match oy with Some y => f x y | None => Raise TypeError end.

(** [x, y = v]: a pair unpacks into its components, a tensor is iterated
    along its first axis and must have exactly two slices. *)
Definition unpack2 (v : pyval) : M (pyval * pyval) :=
  match v with
  | PPair a b => Ret (a, b)
  | PTensor (Node [a; b]) => Ret (PTensor a, PTensor b)
  | PTensor (Node _) => Raise ValueError
  | PTensor (Scalar _) => Raise TypeError
  | PNone => Raise TypeError
  end.

(** ** Compose *)

Fixpoint Compose_two (transforms : list transform) (x y : pyval) : M pyval :=
  match transforms with
  | [] => Ret (PPair x y)
  | t :: rest =>
      r <- t x (Some y);;
      xy <- unpack2 r;;
      Compose_two rest (fst xy) (snd xy)
  end.

Fixpoint Compose_one (transforms : list transform) (x : pyval) : M pyval :=
  match transforms with
  | [] => Ret x
  | t :: rest => r <- t x None;; Compose_one rest r
  end.

Definition Compose_call (transforms : list transform) (x y : pyval) : M pyval :=
  if is_none y then Compose_one transforms x else Compose_two transforms x y.

Definition Compose (transforms : list transform) : transform :=
  with_default (Compose_call transforms).

(** ** Tensor methods reached from Python values *)

(** [v.method(...)]: [None] and tuples have none of the tensor methods. *)
Definition method (v : pyval) : M tensor :=
  match v with
  | PTensor t => Ret t
  | _ => Raise AttributeError
  end.

Definition size_of (v : pyval) (k : nat) : M Z :=
  t <- method v;; size t k.

(** [v[:, a:b, c:d]] *)
Definition subscript3 (v : pyval) (a b c d : Z) : M tensor :=
  match v with
  | PTensor t => getitem3 t a b c d
  | _ => Raise TypeError
  end.

(** [seq[i]] on a Python tuple or list, for a non-negative [i] *)
Definition getitem {A : Type} (l : list A) (i : nat) : M A :=
  match nth_error l i with
  | Some a => Ret a
  | None => Raise IndexError
  end.

(** ** ToCuda *)

(** [t.cuda(device)] moves the storage; the values are unchanged. *)
Definition cuda (t : tensor) (device : Z) : M tensor := Ret t.

Definition ToCuda_call (device : Z) (x y : pyval) : M pyval :=
  xt <- method x;;
  x' <- cuda xt device;;
  if is_none y then Ret (PTensor x')
  else
    yt <- method y;;
    y' <- cuda yt device;;
    Ret (PPair (PTensor x') (PTensor y')).

(** [def __call__(self, x, y)]: no default for [y]. *)
Definition ToCuda (device : Z) : transform :=
  without_default (ToCuda_call device).

(** ** TypeCast *)

Inductive tensor_type : Type :=
| ByteTensor | CharTensor | ShortTensor | IntTensor | LongTensor
| HalfTensor | FloatTensor | DoubleTensor.

(** The [dtype] argument: a string tag or a tensor class. *)
Inductive dtype_arg : Type :=
| DStr (s : string)
| DType (c : tensor_type).

(** [th.<name>]: the tensor classes of the [torch] module; any other
    name is an [AttributeError]. *)
Definition th_attr (name : string) : M tensor_type :=
  if (name =? "ByteTensor")%string then Ret ByteTensor
  else if (name =? "CharTensor")%string then Ret CharTensor
  else if (name =? "ShortTensor")%string then Ret ShortTensor
  else if (name =? "IntTensor")%string then Ret IntTensor
  else if (name =? "LongTensor")%string then Ret LongTensor
  else if (name =? "HalfTensor")%string then Ret HalfTensor
  else if (name =? "FloatTensor")%string then Ret FloatTensor
  else if (name =? "DoubleTensor")%string then Ret DoubleTensor
  else Raise AttributeError.

Record TypeCast : Type := { dtype : dtype_arg }.

Definition TypeCast_init (dtype : dtype_arg) : M TypeCast :=
  match dtype with
  | DStr s =>
      if (s =? "byte")%string then
        c <- th_attr "ByteTensor";; Ret {| dtype := DType c |}
      else if (s =? "double")%string then
        c <- th_attr "DoubleTensor";; Ret {| dtype := DType c |}
      else if (s =? "float")%string then
        c <- th_attr "FloatTensor";; Ret {| dtype := DType c |}
      else if (s =? "int")%string then
        c <- th_attr "Intensor";; Ret {| dtype := DType c |}
      else if (s =? "long")%string then
        c <- th_attr "LongTensor";; Ret {| dtype := DType c |}
      else if (s =? "short")%string then
        c <- th_attr "ShortTensor";; Ret {| dtype := DType c |}
      else Ret {| dtype := DStr s |}
  | DType c => Ret {| dtype := DType c |}
  end.

(** The tags the constructor tests for. *)
Definition recognized_tag (s : string) : bool :=
  existsb (String.eqb s) ["byte"; "double"; "float"; "int"; "long"; "short"]%string.

Section TypeCastCall.

(** [t.type(dtype)] of the tensor library. *)
Variable tensor_type_method : tensor -> dtype_arg -> M tensor.

Definition TypeCast_call (self : TypeCast) (x y : pyval) : M pyval :=
  xt <- method x;;
  x' <- tensor_type_method xt (dtype self);;
  if is_none y then Ret (PTensor x')
  else
    yt <- method y;;
    y' <- tensor_type_method yt (dtype self);;
    Ret (PPair (PTensor x') (PTensor y')).

End TypeCastCall.

(** ** RangeNormalize *)

(** Float arithmetic, idealised: exact, results in lowest terms. *)
Definition fadd (a b : Q) : Q := Qred (a + b).
Definition fsub (a b : Q) : Q := Qred (a - b).
Definition fmul (a b : Q) : Q := Qred (a * b).

(** [a / b] on Python numbers *)
Definition fdiv (a b : Q) : M Q :=
  if Qeq_bool b 0 then Raise ZeroDivisionError else Ret (Qred (a / b)).

Definition qmin (a b : Q) : Q := if Qle_bool a b then a else b.
Definition qmax (a b : Q) : Q := if Qle_bool a b then b else a.

Definition tmin (t : tensor) : M Q :=
  match flatten t with
  | [] => Raise RuntimeError
  | v :: vs => Ret (fold_left qmin vs v)
  end.

Definition tmax (t : tensor) : M Q :=
  match flatten t with
  | [] => Raise RuntimeError
  | v :: vs => Ret (fold_left qmax vs v)
  end.

(** [th.min(v)], [th.max(v)] *)
Definition th_min (v : pyval) : M Q :=
  match v with PTensor t => tmin t | _ => Raise TypeError end.

Definition th_max (v : pyval) : M Q :=
  match v with PTensor t => tmax t | _ => Raise TypeError end.

(** [v.mul(a).add(b)] *)
Definition mul_add (v : pyval) (a b : Q) : M tensor :=
  t <- method v;; Ret (tmap (fun e => fadd (fmul e a) b) t).

Record RangeNormalize : Type := {
  min_range : Q;
  max_range : Q;
  fixed_min : option Q;
  fixed_max : option Q
}.

(** [1e-07] *)
Definition eps : Q := 1 # 10000000.

Definition RangeNormalize_call (self : RangeNormalize) (x y : pyval) : M pyval :=
  min_val <- match fixed_min self with
             | Some m => Ret m
             | None => th_min x
             end;;
  max_val <- match fixed_max self with
             | Some m => Ret m
             | None => th_max x
             end;;
  let min_val := if Qeq_bool min_val max_val then fadd min_val eps else min_val in
  a <- fdiv (fsub (max_range self) (min_range self)) (fsub max_val min_val);;
  let b := fsub (max_range self) (fmul a max_val) in
  x_norm <- mul_add x a b;;
  if is_none y then Ret (PTensor x_norm)
  else
    min_val <- th_min y;;
    max_val <- th_max y;;
    a <- fdiv (fsub (max_range self) (min_range self)) (fsub max_val min_val);;
    let b := fsub (max_range self) (fmul a max_val) in
    y_norm <- mul_add y a b;;
    Ret (PPair (PTensor x_norm) (PTensor y_norm)).

(** ** RandomCrop *)

Definition RandomCrop_call (crop_size : list Z) (x y : pyval) : M pyval :=
  xh <- size_of x 1;;
  c0 <- getitem crop_size 0;;
  h_idx <- randint 0 (xh - c0);;
  xw <- size_of x 2;;
  c1 <- getitem crop_size 1;;
  w_idx <- randint 0 (xw - c1);;
  x' <- subscript3 x h_idx (h_idx + c0) w_idx (w_idx + c1);;
  if is_none y then Ret (PTensor x')
  else
    y' <- subscript3 y h_idx (h_idx + c0) w_idx (w_idx + c1);;
    Ret (PPair (PTensor x') (PTensor y')).

Definition RandomCrop (crop_size : list Z) : transform :=
  with_default (RandomCrop_call crop_size).

(** ** SpecialCrop *)

Record SpecialCrop : Type := {
  crop_size : list Z;
  crop_type : Z
}.

Definition SpecialCrop_init (crop_size : list Z) (crop_type : Z) : M SpecialCrop :=
  if existsb (Z.eqb crop_type) [0; 1; 2; 3; 4]
  then Ret {| crop_size := crop_size; crop_type := crop_type |}
  else Raise ValueError.

(** [(n - c) / 2.] *)
Definition half_diff (n c : Z) : Q := inject_Z (n - c) / 2.

(** The index ranges [[lo_1, hi_1], [lo_2, hi_2]] of the five placements. *)
Definition crop_indices (self : SpecialCrop) (x : pyval) : M ((Z * Z) * (Z * Z)) :=
  if crop_type self =? 0 then
    xh <- size_of x 1;;
    c0 <- getitem (crop_size self) 0;;
    let x_diff := half_diff xh c0 in
    xw <- size_of x 2;;
    c1 <- getitem (crop_size self) 1;;
    let y_diff := half_diff xw c1 in
    Ret ((Qceiling x_diff, xh - Qfloor x_diff),
         (Qceiling y_diff, xw - Qfloor y_diff))
  else if crop_type self =? 1 then
    c0 <- getitem (crop_size self) 0;;
    c1 <- getitem (crop_size self) 1;;
    Ret ((0, c0), (0, c1))
  else if crop_type self =? 2 then
    c0 <- getitem (crop_size self) 0;;
    xw <- size_of x 2;;
    c1 <- getitem (crop_size self) 1;;
    Ret ((0, c0), (xw - c1, xw))
  else if crop_type self =? 3 then
    xh <- size_of x 1;;
    c0 <- getitem (crop_size self) 0;;
    xw <- size_of x 2;;
    c1 <- getitem (crop_size self) 1;;
    Ret ((xh - c0, xh), (xw - c1, xw))
  else if crop_type self =? 4 then
    xh <- size_of x 1;;
    c0 <- getitem (crop_size self) 0;;
    c1 <- getitem (crop_size self) 1;;
    Ret ((xh - c0, xh), (0, c1))
  else Raise UnboundLocalError.

Definition SpecialCrop_call (self : SpecialCrop) (x y : pyval) : M pyval :=
  indices <- crop_indices self x;;
  let '((i00, i01), (i10, i11)) := indices in
  x' <- subscript3 x i00 i01 i10 i11;;
  if is_none y then Ret (PTensor x')
  else
    y' <- subscript3 y i00 i01 i10 i11;;
    Ret (PPair (PTensor x') (PTensor y')).

(** ** Pad *)

Fixpoint zeros (sh : list nat) : tensor :=
  match sh with
  | [] => Scalar 0
  | n :: sh' => Node (repeat (zeros sh') n)
  end.

(** Constant padding with [before] and [after] zero blocks on each axis,
    outermost axis first. *)
Fixpoint pad_nd (pads : list (nat * nat)) (t : tensor) : tensor :=
  match pads, t with
  | (before, after) :: rest, Node l =>
      let l' := map (pad_nd rest) l in
      let z := zeros (match l' with [] => [] | c :: _ => shape c end) in
      Node (repeat z before ++ l' ++ repeat z after)
  | _, _ => t
  end.

(** [np.pad(t, pads, mode='constant')]: one [(before, after)] pair per
    axis, or a single pair that is used for every axis. *)
Definition np_pad (t : tensor) (pads : list (Z * Z)) : M tensor :=
  if existsb (fun p => (fst p <? 0) || (snd p <? 0)) pads then Raise ValueError
  else
    let pads' := map (fun p => (Z.to_nat (fst p), Z.to_nat (snd p))) pads in
    if (length pads =? dim t)%nat then Ret (pad_nd pads' t)
    else
      match pads' with
      | [p] => Ret (pad_nd (repeat p (dim t)) t)
      | _ => Raise ValueError
      end.

Definition shape_diffs (xshape : list nat) (size : list Q) : list Z :=
  map (Z.max 0)
      (map (fun p => Qceiling (snd p - inject_Z (Z.of_nat (fst p))))
           (combine xshape size)).

Definition pad_sizes (xshape : list nat) (size : list Q) : list (Z * Z) :=
  map (fun s => (Qceiling (inject_Z s / 2), Qfloor (inject_Z s / 2)))
      (shape_diffs xshape size).

Definition Pad_call (size : list Q) (x y : pyval) : M pyval :=
  xt <- method x;;
  let pads := pad_sizes (shape xt) size in
  x' <- np_pad xt pads;;
  if is_none y then Ret (PTensor x')
  else
    yt <- method y;;
    y' <- np_pad yt pads;;
    Ret (PPair (PTensor x') (PTensor y')).

(** ** RandomOrder *)

Definition RandomOrder_call (x y : pyval) : M pyval :=
  xt <- method x;;
  order <- randperm (dim xt);;
  x' <- index_select0 order xt;;
  y' <- (if is_none y then Ret y
         else
           yt <- method y;;
           r <- index_select0 order yt;;
           Ret (PTensor r));;
  Ret (PPair (PTensor x') y').

Definition RandomOrder : transform := with_default RandomOrder_call.

(** ** AddChannel *)

Fixpoint unsqueeze_at (axis : nat) (t : tensor) : tensor :=
  match axis with
  | O => Node [t]
  | S axis' =>
      match t with
      | Scalar v => Scalar v
      | Node l => Node (map (unsqueeze_at axis') l)
      end
  end.

(** [t.unsqueeze(axis)] for a non-negative [axis]: a new axis of extent
    one at that position, which must not lie beyond the last axis. *)
Definition unsqueeze (t : tensor) (axis : nat) : M tensor :=
  if (dim t <? axis)%nat then Raise RuntimeError
  else Ret (unsqueeze_at axis t).

Definition AddChannel_call (axis : nat) (x y : pyval) : M pyval :=
  xt <- method x;;
  x' <- unsqueeze xt axis;;
  if is_none y then Ret (PTensor x')
  else
    yt <- method y;;
    y' <- unsqueeze yt axis;;
    Ret (PPair (PTensor x') (PTensor y')).

Definition AddChannel (axis : nat) : transform :=
  with_default (AddChannel_call axis).

(** ** Slice2D *)

(** [x.size(k)] where a negative [k] counts from the last axis. *)
Definition size_any (t : tensor) (k : Z) : M Z :=
  let n := Z.of_nat (dim t) in
  let k' := if k <? 0 then k + n else k in
  if (k' <? 0) || (n <=? k') then Raise IndexError
  else size t (Z.to_nat k').

Fixpoint select_at (axis : nat) (k : nat) (t : tensor) : tensor :=
  match t with
  | Scalar v => Scalar v
  | Node l =>
      match axis with
      | O => nth k l (Scalar 0)
      | S axis' => Node (map (select_at axis' k) l)
      end
  end.

(** [t[k, :, :]], [t[:, k, :]] and [t[:, :, k]] for [axis] 0, 1 and 2:
    the slice at position [k] of that axis, the axis itself dropped.  Three
    indices need three axes; a negative [k] counts from the end. *)
Definition select3 (t : tensor) (axis : nat) (k : Z) : M tensor :=
  if (dim t <? 3)%nat then Raise IndexError
  else
    let n := Z.of_nat (nth axis (shape t) O) in
    let k' := if k <? 0 then k + n else k in
    if (k' <? 0) || (n <=? k') then Raise IndexError
    else Ret (select_at axis (Z.to_nat k') t).

Definition subscript_select (v : pyval) (axis : nat) (k : Z) : M tensor :=
  match v with
  | PTensor t => select3 t axis k
  | _ => Raise TypeError
  end.

(** [th.sum(t)] *)
Definition tsum (t : tensor) : Q := Qred (fold_right Qplus 0%Q (flatten t)).

Definition th_sum (v : pyval) : M Q :=
  match v with PTensor t => Ret (tsum t) | _ => Raise TypeError end.

Record Slice2D : Type := {
  axis : Z;
  reject_zeros : bool
}.

(** [th.sum(t) > 0] *)
Definition sum_positive (t : tensor) : bool := negb (Qle_bool (tsum t) 0).

(** [if y is not None: return slice_x, slice_y else: return slice_x];
    [slice_y] is bound only when [y] is present. *)
Definition Slice2D_return (slice_x : tensor) (slice_y : option tensor) : pyval :=
  match slice_y with
  | Some sy => PPair (PTensor slice_x) (PTensor sy)
  | None => PTensor slice_x
  end.

(** The test that leaves the loop when [reject_zeros] is set:
    [y is not None and th.sum(slice_y) > 0], else [th.sum(slice_x) > 0]. *)
Definition Slice2D_accept (slice_x : tensor) (slice_y : option tensor) : bool :=
  match slice_y with
  | Some sy => sum_positive sy || sum_positive slice_x
  | None => sum_positive slice_x
  end.

(** The [while True] loop, unrolled at most [fuel] times; [None] when the
    loop has not left after that many iterations.  When [axis] is none of
    0, 1, 2 no branch binds [slice_x], and its first use is an
    [UnboundLocalError]. *)
Fixpoint Slice2D_loop (fuel : nat) (self : Slice2D) (x y : pyval) : M (option pyval) :=
  match fuel with
  | O => Ret None
  | S fuel' =>
      xt <- method x;;
      n <- size_any xt (axis self);;
      keep_slice <- randint 0 (n - 1);;
      if (axis self =? 0) || (axis self =? 1) || (axis self =? 2) then
        let a := Z.to_nat (axis self) in
        slice_x <- subscript_select x a keep_slice;;
        slice_y <- (if is_none y then Ret None
                    else sy <- subscript_select y a keep_slice;; Ret (Some sy));;
        if negb (reject_zeros self) then Ret (Some (Slice2D_return slice_x slice_y))
        else if Slice2D_accept slice_x slice_y
             then Ret (Some (Slice2D_return slice_x slice_y))
             else Slice2D_loop fuel' self x y
      else Raise UnboundLocalError
  end.

(** ** Elements by index *)

(** [t[i_0, ..., i_{n-1}]] for a full index. *)
Fixpoint get (t : tensor) (idx : list nat) : option Q :=
  match idx, t with
  | [], Scalar v => Some v
  | i :: idx', Node l =>
      match nth_error l i with
      | Some c => get c idx'
      | None => None
      end
  | _, _ => None
  end.

Definition at_index (t : tensor) (idx : list nat) : Q :=
  match get t idx with Some v => v | None => 0%Q end.

(** The tensor of shape [sh] whose element at [idx] is [f idx]. *)
Fixpoint tabulate (sh : list nat) (f : list nat -> Q) : tensor :=
  match sh with
  | [] => Scalar (f [])
  | n :: sh' => Node (map (fun i => tabulate sh' (fun idx => f (i :: idx))) (seq 0 n))
  end.

(** An index within a shape. *)
Definition in_range (idx sh : list nat) : Prop := Forall2 lt idx sh.

(** ** Transpose *)

Definition swap_index (a b i : nat) : nat :=
  if (i =? a)%nat then b else if (i =? b)%nat then a else i.

(** The list with the entries at positions [a] and [b] exchanged. *)
Definition swap_entries (a b : nat) (l : list nat) : list nat :=
  map (fun i => nth (swap_index a b i) l O) (seq 0 (length l)).

(** The tensor with axes [a] and [b] exchanged: the element at [idx] is the
    element of [t] at [idx] with positions [a] and [b] exchanged. *)
Definition swapaxes (a b : nat) (t : tensor) : tensor :=
  tabulate (swap_entries a b (shape t))
           (fun idx => at_index t (swap_entries a b idx)).

(** [th.transpose(t, dim1, dim2)] for non-negative axes. *)
Definition th_transpose (t : tensor) (dim1 dim2 : nat) : M tensor :=
  if (dim1 <? dim t)%nat && (dim2 <? dim t)%nat then Ret (swapaxes dim1 dim2 t)
  else Raise RuntimeError.

Definition transpose_of (v : pyval) (dim1 dim2 : nat) : M tensor :=
  match v with
  | PTensor t => th_transpose t dim1 dim2
  | _ => Raise TypeError
  end.

Definition Transpose_call (dim1 dim2 : nat) (x y : pyval) : M pyval :=
  x' <- transpose_of x dim1 dim2;;
  if is_none y then Ret (PTensor x')
  else
    y' <- transpose_of y dim1 dim2;;
    Ret (PPair (PTensor x') (PTensor y')).

(** ** ChannelsLast and ChannelsFirst *)

(** The position of [a] in [p]. *)
Fixpoint index_of (a : nat) (p : list nat) : nat :=
  match p with
  | [] => O
  | b :: p' => if (a =? b)%nat then O else S (index_of a p')
  end.

(** [p] lists each of [0 .. n-1] once. *)
Definition is_permutation (p : list nat) (n : nat) : bool :=
  (length p =? n)%nat && forallb (fun a => existsb (Nat.eqb a) p) (seq 0 n).

(** Axis [k] of the result is axis [p_k] of [t]: the element at [idx] is
    the element of [t] whose index has, at each position [a], the entry of
    [idx] at the position of [a] in [p]. *)
Definition permute_axes (p : list nat) (t : tensor) : tensor :=
  let sh := shape t in
  tabulate (map (fun a => nth a sh O) p)
           (fun idx =>
              at_index t (map (fun a => nth (index_of a p) idx O) (seq 0 (length sh)))).

(** [t.permute( *p )] *)
Definition permute (t : tensor) (p : list nat) : M tensor :=
  if is_permutation p (dim t) then Ret (permute_axes p t)
  else Raise RuntimeError.

(** [list(range(1, ndim)) + [0]] *)
Definition plist_last (ndim : nat) : list nat := seq 1 (ndim - 1) ++ [O].

(** [[ndim - 1] + list(range(0, ndim - 1))] *)
Definition plist_first (ndim : nat) : list nat := (ndim - 1)%nat :: seq 0 (ndim - 1).

Definition ChannelsLast_call (safe_check : bool) (x y : pyval) : M pyval :=
  xt <- method x;;
  let ndim := dim xt in
  already <- (if safe_check then
                last <- size_any xt (-1);;
                first <- size_any xt 0;;
                Ret (last <? first)
              else Ret false);;
  if already then (if is_none y then Ret x else Ret (PPair x y))
  else
    let plist := plist_last ndim in
    x' <- permute xt plist;;
    if is_none y then Ret (PTensor x')
    else
      yt <- method y;;
      y' <- permute yt plist;;
      Ret (PPair (PTensor x') (PTensor y')).

Definition ChannelsFirst_call (safe_check : bool) (x y : pyval) : M pyval :=
  xt <- method x;;
  let ndim := dim xt in
  already <- (if safe_check then
                first <- size_any xt 0;;
                last <- size_any xt (-1);;
                Ret (first <? last)
              else Ret false);;
  if already then (if is_none y then Ret x else Ret (PPair x y))
  else
    let plist := plist_first ndim in
    x' <- permute xt plist;;
    if is_none y then Ret (PTensor x')
    else
      yt <- method y;;
      y' <- permute yt plist;;
      Ret (PPair (PTensor x') (PTensor y')).

(** [(c, rest...)] becomes [(rest..., c)] and back. *)
Definition rotate_left (l : list nat) : list nat :=
  match l with
  | [] => []
  | a :: l' => l' ++ [a]
  end.

Definition rotate_right (l : list nat) : list nat :=
  match l with
  | [] => []
  | _ :: _ => last l O :: removelast l
  end.

(** ** RandomFlip *)

(** [t[::-1, ...]] *)
Definition reverse0 (t : tensor) : tensor :=
  match t with
  | Scalar v => Scalar v
  | Node l => Node (rev l)
  end.

(** [a.swapaxes(i, j)] of numpy, for non-negative axes. *)
Definition np_swapaxes (t : tensor) (i j : nat) : M tensor :=
  if (i <? dim t)%nat && (j <? dim t)%nat then Ret (swapaxes i j t)
  else Raise ValueError.

(** [t = t.swapaxes(a, 0); t = t[::-1, ...]; t = t.swapaxes(0, a)] *)
Definition flip_axis (a : nat) (t : tensor) : M tensor :=
  t1 <- np_swapaxes t a 0;;
  np_swapaxes (reverse0 t1) 0 a.

(** The flip of [x], and of [y] when it is present. *)
Definition flip_streams (a : nat) (x : tensor) (y : option tensor)
  : M (tensor * option tensor) :=
  x' <- flip_axis a x;;
  match y with
  | None => Ret (x', None)
  | Some yt => y' <- flip_axis a yt;; Ret (x', Some y')
  end.

Record RandomFlip : Type := {
  horizontal : bool;
  vertical : bool;
  p : Q
}.

(** [u < p] on floats *)
Definition float_lt (u p : Q) : bool := negb (Qle_bool p u).

(** One trial: when the direction is enabled, [random.random()] is called
    once and the streams are flipped if the draw is below [p].  The
    uniform floats come from the stream [rnd], read at position [pos]. *)
Definition flip_trial (enabled : bool) (a : nat) (p : Q) (rnd : nat -> Q)
           (st : tensor * option tensor * nat) : M (tensor * option tensor * nat) :=
  let '(x, y, pos) := st in
  if enabled then
    if float_lt (rnd pos) p then
      xy <- flip_streams a x y;; Ret (fst xy, snd xy, S pos)
    else Ret (x, y, S pos)
  else Ret (x, y, pos).

Definition RandomFlip_call (self : RandomFlip) (rnd : nat -> Q) (pos : nat)
           (x y : pyval) : M (pyval * nat) :=
  xt <- method x;;
  yo <- (if is_none y then Ret None else yt <- method y;; Ret (Some yt));;
  st1 <- flip_trial (horizontal self) 2 (p self) rnd (xt, yo, pos);;
  st2 <- flip_trial (vertical self) 1 (p self) rnd st1;;
  let '(x', y', pos') := st2 in
  match y' with
  | None => Ret (PTensor x', pos')
  | Some yt => Ret (PPair (PTensor x') (PTensor yt), pos')
  end.

(** The elements along axis [a] in reverse order. *)
Fixpoint reverse_axis (a : nat) (t : tensor) : tensor :=
  match t with
  | Scalar v => Scalar v
  | Node l =>
      match a with
      | O => Node (rev l)
      | S a' => Node (map (reverse_axis a') l)
      end
  end.

(** The index mirrored at position [a] within the shape [sh]. *)
Fixpoint mirror_index (a : nat) (sh idx : list nat) : list nat :=
  match a, sh, idx with
  | O, n :: _, i :: r => (n - 1 - i)%nat :: r
  | S a', _ :: sh', i :: r => i :: mirror_index a' sh' r
  | _, _, _ => idx
  end.

(** The tensor, reversed along axis [a] when [b] holds. *)
Definition flip_if (b : bool) (a : nat) (t : tensor) : tensor :=
  if b then reverse_axis a t else t.

(** ** ToFile *)

Record ToFile : Type := {
  root : string;
  save_format : string;
  counter : nat
}.

Definition ToFile_init (root save_format : string) : ToFile :=
  {| root := root; save_format := save_format; counter := 0 |}.

(** ['%i' % n] for a counter [n] *)
Definition percent_i (n : nat) : string := NilEmpty.string_of_uint (Nat.to_uint n).

(** [os.path.join(a, b)] for a relative [b]: [b] is appended to [a], with
    a separator unless [a] is empty or ends with one. *)
Definition needs_separator (a : string) : bool :=
  match rev (list_ascii_of_string a) with
  | [] => false
  | c :: _ => negb (Ascii.eqb c "/")
  end.

Definition path_join (a b : string) : string :=
  if needs_separator a then (a ++ "/" ++ b)%string else (a ++ b)%string.

Definition x_path (self : ToFile) : string :=
  path_join (root self) ("x_img-" ++ percent_i (counter self) ++ ".npy")%string.

Definition y_path (self : ToFile) : string :=
  path_join (root self) ("y_img-" ++ percent_i (counter self) ++ ".npy")%string.

(** The files written so far, newest first. *)
Definition files : Type := list (string * tensor).

(** [self.counter += 1] *)
Definition bump (self : ToFile) : ToFile :=
  {| root := root self; save_format := save_format self;
     counter := S (counter self) |}.

(** The call changes the counter of the object and the files on disk; both
    survive an exception, so the state is returned beside the result. *)
Definition ToFile_call (self : ToFile) (fs : files) (x y : pyval)
  : ToFile * files * result pyval :=
  match x with
  | PTensor xt =>
      let fs1 := (x_path self, xt) :: fs in
      if is_none y then (bump self, fs1, Ok x)
      else
        match y with
        | PTensor yt => (bump self, (y_path self, yt) :: fs1, Ok (PPair x y))
        | _ => (self, fs1, Err AttributeError)
        end
  | _ => (self, fs, Err AttributeError)
  end.

(** One call per sample, in order, each starting from the state the
    previous one left. *)
Fixpoint ToFile_run (self : ToFile) (fs : files) (samples : list (tensor * option tensor))
  : ToFile * files :=
  match samples with
  | [] => (self, fs)
  | (x, yo) :: rest =>
      let y := match yo with Some yt => PTensor yt | None => PNone end in
      let '(self', fs', _) := ToFile_call self fs (PTensor x) y in
      ToFile_run self' fs' rest
  end.

(** The file a path holds: the newest write to it. *)
Fixpoint read_file (fs : files) (path : string) : option tensor :=
  match fs with
  | [] => None
  | (q, t) :: fs' => if (q =? path)%string then Some t else read_file fs' path
  end.

(** The paths of the sample with index [n] under [root]. *)
Definition x_path_of (root : string) (n : nat) : string :=
  path_join root ("x_img-" ++ percent_i n ++ ".npy")%string.

Definition y_path_of (root : string) (n : nat) : string :=
  path_join root ("y_img-" ++ percent_i n ++ ".npy")%string.

(** The files a run over [samples] writes, newest first, when the counter
    starts at [c]. *)
Fixpoint written (r : string) (c : nat) (samples : list (tensor * option tensor)) : files :=
  match samples with
  | [] => []
  | (x, yo) :: rest =>
      written r (S c) rest ++
      match yo with
      | Some y => [(y_path_of r c, y); (x_path_of r c, x)]
      | None => [(x_path_of r c, x)]
      end
  end.

(** ** UnitRange *)

(** [t.div(d)]: dividing a float tensor by zero gives [inf] or [nan]
    entries, for which the rational model has no value: [None]. *)
Definition tdiv (t : tensor) (d : Q) : option tensor :=
  if Qeq_bool d 0 then None
  else Some (tmap (fun e => Qred (e / d)) t).

(** [v.sub(v.min()).div(v.max() - v.min())] *)
Definition unit_range_of (v : pyval) : M (option tensor) :=
  t <- method v;;
  mn <- tmin t;;
  let shifted := tmap (fun e => fsub e mn) t in
  mx <- tmax t;;
  mn' <- tmin t;;
  Ret (tdiv shifted (fsub mx mn')).

Definition UnitRange_call (x y : pyval) : M (option pyval) :=
  x' <- unit_range_of x;;
  if is_none y then Ret (option_map PTensor x')
  else
    y' <- unit_range_of y;;
    Ret (match x', y' with
         | Some a, Some b => Some (PPair (PTensor a) (PTensor b))
         | _, _ => None
         end).

(** ** Vocabulary of the statements *)

(** [leaves P m]: every value the computation can return satisfies [P],
    whatever the random source answers. *)
Fixpoint leaves {A : Type} (P : A -> Prop) (m : M A) : Prop :=
  match m with
  | Ret a => P a
  | Raise _ => True
  | RandInt _ _ k => forall v, leaves P (k v)
  | RandPerm _ k => forall p, leaves P (k p)
  end.

(** [never_raises m]: no path of the computation ends in an exception. *)
Fixpoint never_raises {A : Type} (m : M A) : Prop :=
  match m with
  | Ret _ => True
  | Raise _ => False
  | RandInt _ _ k => forall v, never_raises (k v)
  | RandPerm _ k => forall p, never_raises (k p)
  end.

Definition is_pair (v : pyval) : Prop :=
  match v with PPair _ _ => True | _ => False end.

Definition is_tensor (v : pyval) : Prop :=
  match v with PTensor _ => True | _ => False end.

(** A pair of two tensors: the result of a unit in two-stream mode. *)
Definition is_tensor_pair (v : pyval) : Prop :=
  match v with PPair (PTensor _) (PTensor _) => True | _ => False end.

(** The two-stream contract of a transform unit: given a tensor [x] and a
    tensor [y], it returns a pair of tensors (or raises). *)
Definition two_stream (t : transform) : Prop :=
  forall x y : tensor, leaves is_tensor_pair (t (PTensor x) (Some (PTensor y))).

(** The one-stream contract: given [x] alone, it returns one tensor (or
    raises for a reason of its own). *)
Definition one_stream (t : transform) : Prop :=
  forall x : tensor, leaves is_tensor (t (PTensor x) None).

(** The unit applied to the unpacked result of the previous one:
    [x, y = r] followed by [t(x, y)]. *)
Definition apply_to_result (t : transform) (r : pyval) : M pyval :=
  xy <- unpack2 r;; t (fst xy) (Some (snd xy)).

(** Rectangular tensors of a given shape. *)
Fixpoint has_shapeb (sh : list nat) (t : tensor) : bool :=
  match sh, t with
  | [], Scalar _ => true
  | n :: sh', Node l => (length l =? n)%nat && forallb (has_shapeb sh') l
  | _, _ => false
  end.

Definition has_shape (sh : list nat) (t : tensor) : Prop :=
  has_shapeb sh t = true.

Definition positive_dims (sh : list nat) : bool :=
  forallb (fun n => (0 <? n)%nat) sh.

(** The crop [t[:, h:h+ch, w:w+cw]] as a total function. *)
Definition crop (h ch w cw : Z) (t : tensor) : tensor :=
  slice_axis 2 w (w + cw) (slice_axis 1 h (h + ch) t).

(** The shape after padding axis [i] with [before_i] and [after_i]. *)
Definition padded_shape (pads : list (nat * nat)) (sh : list nat) : list nat :=
  map (fun pd => (fst (fst pd) + snd pd + snd (fst pd))%nat) (combine pads sh).

(** The pad widths as [np.pad] uses them. *)
Definition pad_widths (pads : list (Z * Z)) : list (nat * nat) :=
  map (fun p => (Z.to_nat (fst p), Z.to_nat (snd p))) pads.

(** What the split of one axis must satisfy: the two borders add up to the
    clamped difference, the border before is the larger by at most one,
    and an axis already at or above the target gets none. *)
Definition split_ok (axis : nat * Q) (border : Z * Z) : Prop :=
  let s := Z.max 0 (Qceiling (snd axis - inject_Z (Z.of_nat (fst axis)))) in
  fst border + snd border = s /\
  0 <= snd border <= fst border /\ fst border <= snd border + 1 /\
  fst border = - (- s / 2) /\ snd border = s / 2 /\
  ((snd axis <= inject_Z (Z.of_nat (fst axis)))%Q -> border = (0, 0)).

(** The extent of an axis after padding up to its target. *)
Definition padded_dim (axis : nat * Q) : nat :=
  Z.to_nat (Z.max (Z.of_nat (fst axis)) (Qceiling (snd axis))).

(** The affine map of a stream derived from its own observed minimum and
    maximum alone, with no guard against their being equal. *)
Definition observed_stream (lo hi : Q) (v : pyval) : M tensor :=
  min_val <- th_min v;;
  max_val <- th_max v;;
  a <- fdiv (fsub hi lo) (fsub max_val min_val);;
  let b := fsub hi (fmul a max_val) in
  mul_add v a b.

(** *** Sample inputs *)

(** A one-dimensional tensor of integers. *)
Definition vec (l : list Z) : tensor :=
  Node (map (fun v => Scalar (inject_Z v)) l).

(** An image of shape [(C, 1, 1)], one pixel per channel. *)
Definition image (channels : list Z) : tensor :=
  Node (map (fun v => Node [Node [Scalar (inject_Z v)]]) channels).

(** An image with four channels, shape [(4, 1, 1)]. *)
Definition rgba : tensor := image [1; 2; 3; 4].

(** A grey-scale image, shape [(1, 2, 2)]. *)
Definition gray : tensor := Node [Node [vec [1; 2]; vec [3; 4]]].

(** A one-channel image of shape [(1, 3, 3)]. *)
Definition grid3 : tensor := Node [Node [vec [1; 2; 3]; vec [4; 5; 6]; vec [7; 8; 9]]].

(** The three channels of an image of shape [(3, 2, 2)]. *)
Definition rgb_channels : list tensor :=
  [Node [vec [1; 2]; vec [3; 4]];
   Node [vec [5; 6]; vec [7; 8]];
   Node [vec [9; 10]; vec [11; 12]]].

(** A matrix of shape [(2, 2)]. *)
Definition matrix22 : tensor := Node [vec [1; 2]; vec [3; 4]].

(** A stream of uniform floats that is constantly one quarter. *)
Definition quarter_stream (i : nat) : Q := 1 # 4.

(** A [type] method that leaves the values as they are. *)
Definition type_identity (t : tensor) (d : dtype_arg) : M tensor := Ret t.

(** [RangeNormalize(0, 1)] *)
Definition unit_range : RangeNormalize :=
  {| min_range := 0; max_range := 1; fixed_min := None; fixed_max := None |}.

(** [RangeNormalize(0, 1, fixed_min=0, fixed_max=255)] *)
Definition byte_range : RangeNormalize :=
  {| min_range := 0; max_range := 1;
     fixed_min := Some 0%Q; fixed_max := Some (255 # 1)%Q |}.

(** * Properties *)

(** ** The monad *)

Lemma Meq_refl {A : Type} (m : M A) : Meq m m.
Proof.
  induction m as [a | e | lo hi k IH | n k IH]; simpl; auto.
Qed.

Lemma Meq_sym {A : Type} (m1 m2 : M A) : Meq m1 m2 -> Meq m2 m1.
Proof.
  revert m2.
  induction m1 as [a | e | lo hi k IH | n k IH]; intros [b | e' | lo' hi' k' | n' k'];
    simpl; try tauto; try congruence.
  - intros (-> & -> & H). repeat split. intro v. apply IH, H.
  - intros (-> & H). split; [reflexivity |]. intro p. apply IH, H.
Qed.

Lemma Meq_trans {A : Type} (m1 m2 m3 : M A) :
  Meq m1 m2 -> Meq m2 m3 -> Meq m1 m3.
Proof.
  revert m2 m3.
  induction m1 as [a | e | lo hi k IH | n k IH];
    intros [b | e2 | lo2 hi2 k2 | n2 k2] [c | e3 | lo3 hi3 k3 | n3 k3];
    simpl; try tauto; try congruence.
  - intros (-> & -> & H12) (-> & -> & H23). repeat split.
    intro v. eapply IH; eauto.
  - intros (-> & H12) (-> & H23). split; [reflexivity |].
    intro p. eapply IH; eauto.
Qed.

Lemma Meq_bind {A B : Type} (m1 m2 : M A) (f g : A -> M B) :
  Meq m1 m2 -> (forall a, Meq (f a) (g a)) -> Meq (bind m1 f) (bind m2 g).
Proof.
  intros Hm Hf. revert m2 Hm.
  induction m1 as [a | e | lo hi k IH | n k IH]; intros [b | e' | lo' hi' k' | n' k'];
    simpl; try tauto.
  - intros ->. apply Hf.
  - intros (-> & -> & H). repeat split. intro v. apply IH, H.
  - intros (-> & H). split; [reflexivity |]. intro p. apply IH, H.
Qed.

Lemma bind_assoc_eq {A B C : Type} (m : M A) (f : A -> M B) (g : B -> M C) :
  Meq (bind (bind m f) g) (bind m (fun a => bind (f a) g)).
Proof.
  induction m as [a | e | lo hi k IH | n k IH]; simpl; auto using Meq_refl.
Qed.

(** Computations that are the same tree have the same outcomes and the
    same number of draws. *)
Lemma Meq_outcomes {A : Type} (m1 m2 : M A) :
  Meq m1 m2 -> outcomes m1 = outcomes m2.
Proof.
  revert m2.
  induction m1 as [a | e | lo hi k IH | n k IH]; intros [b | e' | lo' hi' k' | n' k'];
    simpl; try tauto; try congruence.
  - intros (-> & -> & H). apply flat_map_ext. intro v. apply IH, H.
  - intros (-> & H). apply flat_map_ext. intro p. apply IH, H.
Qed.

Lemma Meq_draws {A : Type} (m1 m2 : M A) (ans : list answer) :
  Meq m1 m2 -> draws m1 ans = draws m2 ans.
Proof.
  revert m1 m2.
  induction ans as [| a ans IH]; intros m1 m2.
  - destruct m1, m2; simpl; tauto.
  - destruct m1, m2; simpl; try tauto; destruct a; try tauto.
    + intros (_ & _ & H). f_equal. apply IH, H.
    + intros (_ & H). f_equal. apply IH, H.
Qed.

Lemma leaves_bind {A B : Type} (P : A -> Prop) (Q : B -> Prop)
      (m : M A) (f : A -> M B) :
  leaves P m -> (forall a, P a -> leaves Q (f a)) -> leaves Q (bind m f).
Proof.
  intros Hm Hf.
  induction m as [a | e | lo hi k IH | n k IH]; simpl in *; auto.
Qed.

Lemma leaves_weaken {A : Type} (P Q : A -> Prop) (m : M A) :
  (forall a, P a -> Q a) -> leaves P m -> leaves Q m.
Proof.
  intros HPQ.
  induction m as [a | e | lo hi k IH | n k IH]; simpl; auto.
Qed.

Lemma leaves_trivial {A : Type} (m : M A) : leaves (fun _ => True) m.
Proof.
  induction m as [a | e | lo hi k IH | n k IH]; simpl; auto.
Qed.

Lemma Meq_bind_leaves {A B : Type} (P : A -> Prop) (m : M A) (f g : A -> M B) :
  leaves P m -> (forall a, P a -> Meq (f a) (g a)) -> Meq (bind m f) (bind m g).
Proof.
  intros Hm Hfg.
  induction m as [a | e | lo hi k IH | n k IH]; simpl in *; auto.
Qed.

(** Unpacking a pair and packing it again changes nothing. *)
Lemma repack_pair (m : M pyval) :
  leaves is_pair m ->
  Meq (r <- m;; xy <- unpack2 r;; Ret (PPair (fst xy) (snd xy))) m.
Proof.
  induction m as [a | e | lo hi k IH | n k IH]; simpl; auto.
  destruct a; simpl; tauto.
Qed.

Lemma is_tensor_pair_is_pair (v : pyval) : is_tensor_pair v -> is_pair v.
Proof. destruct v; simpl; tauto. Qed.

(** ** Compose *)

(** The two-stream loop, one step unfolded. *)
Lemma Compose_two_cons (t : transform) (rest : list transform) (x y : pyval) :
  Compose_two (t :: rest) x y =
  (r <- t x (Some y);; xy <- unpack2 r;; Compose_two rest (fst xy) (snd xy)).
Proof. reflexivity. Qed.

(** C6: the composer built from the empty list returns its input: [x]
    alone in one-stream mode (called with one argument, or with [y]
    [None]), the pair [(x, y)] in two-stream mode. *)
Theorem Compose_empty_is_identity :
  (forall x : pyval, Compose [] x None = Ret x) /\
  (forall x : pyval, Compose_call [] x PNone = Ret x) /\
  (forall (x : pyval) (y : tensor),
      Compose_call [] x (PTensor y) = Ret (PPair x (PTensor y))) /\
  (forall x y : pyval,
      Compose [] x (Some y) = Ret (if is_none y then x else PPair x y)).
Proof.
  repeat split; intros; try reflexivity.
  unfold Compose, with_default, Compose_call.
  destruct (is_none y); reflexivity.
Qed.

(** C5: for units [T1], [T2] that honour the two-stream contract, the
    composer of [[T1; T2]] on [(x, y)] is [T2] applied to the result of
    [T1] on [(x, y)]: the same draws in the same order, the same result. *)
Theorem Compose_two_units_stepwise (T1 T2 : transform) (x y : tensor) :
  two_stream T1 -> two_stream T2 ->
  Meq (Compose_call [T1; T2] (PTensor x) (PTensor y))
      (r <- T1 (PTensor x) (Some (PTensor y));; apply_to_result T2 r).
Proof.
  intros H1 H2.
  unfold Compose_call. simpl is_none. cbv iota.
  rewrite Compose_two_cons.
  apply Meq_bind_leaves with (P := is_tensor_pair); [apply H1 |].
  intros r Hr.
  destruct r as [| t | [| a |] [| b |]]; simpl in Hr; try contradiction.
  unfold apply_to_result. simpl.
  apply repack_pair.
  eapply leaves_weaken; [apply is_tensor_pair_is_pair | apply H2].
Qed.

(** ** The stream contracts of the units *)

Ltac leaves_step :=
  match goal with
  | |- leaves _ (Ret _) => exact I
  | |- leaves _ (Raise _) => exact I
  | |- leaves _ (bind _ _) =>
      apply leaves_bind with (P := fun _ => True);
      [apply leaves_trivial | intros ? _]
  | |- leaves _ (if ?b then _ else _) => destruct b
  | |- leaves _ (let '(_, _) := ?p in _) => destruct p
  | |- leaves _ (match ?x with _ => _ end) => destruct x
  end.

Ltac leaves_auto := cbn [is_none]; repeat leaves_step.

Lemma ToCuda_two_stream (device : Z) : two_stream (ToCuda device).
Proof.
  intros x y. unfold ToCuda, without_default, ToCuda_call. leaves_auto.
Qed.

Lemma RandomOrder_two_stream : two_stream RandomOrder.
Proof.
  intros x y. unfold RandomOrder, with_default, RandomOrder_call.
  cbn [is_none method bind].
  apply leaves_bind with (P := fun _ => True); [apply leaves_trivial | intros order _].
  apply leaves_bind with (P := fun _ => True); [apply leaves_trivial | intros x' _].
  apply leaves_bind with (P := is_tensor).
  - apply leaves_bind with (P := fun _ => True); [apply leaves_trivial | intros r _].
    exact I.
  - intros [| t |]; simpl; tauto.
Qed.

Lemma RandomCrop_two_stream (crop_size : list Z) : two_stream (RandomCrop crop_size).
Proof.
  intros x y. unfold RandomCrop, with_default, RandomCrop_call. leaves_auto.
Qed.

Lemma SpecialCrop_two_stream (self : SpecialCrop) :
  two_stream (with_default (SpecialCrop_call self)).
Proof.
  intros x y. unfold with_default, SpecialCrop_call. leaves_auto.
Qed.

Lemma Pad_two_stream (size : list Q) : two_stream (with_default (Pad_call size)).
Proof.
  intros x y. unfold with_default, Pad_call. leaves_auto.
Qed.

Lemma RangeNormalize_two_stream (self : RangeNormalize) :
  two_stream (with_default (RangeNormalize_call self)).
Proof.
  intros x y. unfold with_default, RangeNormalize_call. leaves_auto.
Qed.

Lemma RandomCrop_one_stream (crop_size : list Z) : one_stream (RandomCrop crop_size).
Proof.
  intros x. unfold RandomCrop, with_default, RandomCrop_call. leaves_auto.
Qed.

Lemma SpecialCrop_one_stream (self : SpecialCrop) :
  one_stream (with_default (SpecialCrop_call self)).
Proof.
  intros x. unfold with_default, SpecialCrop_call. leaves_auto.
Qed.

Lemma Pad_one_stream (size : list Q) : one_stream (with_default (Pad_call size)).
Proof.
  intros x. unfold with_default, Pad_call. leaves_auto.
Qed.

Lemma RangeNormalize_one_stream (self : RangeNormalize) :
  one_stream (with_default (RangeNormalize_call self)).
Proof.
  intros x. unfold with_default, RangeNormalize_call. leaves_auto.
Qed.

(** ** Shapes *)

Lemma has_shape_shape (sh : list nat) :
  forall t, has_shape sh t -> positive_dims sh = true -> shape t = sh.
Proof.
  unfold has_shape.
  induction sh as [| n sh IH]; intros [v | l]; simpl; try discriminate; auto.
  intros H P.
  apply andb_prop in H. destruct H as [Hlen Hall].
  apply andb_prop in P. destruct P as [Hn Hpos].
  apply Nat.eqb_eq in Hlen. apply Nat.ltb_lt in Hn.
  destruct l as [| c l]; simpl in *; [lia |].
  apply andb_prop in Hall. destruct Hall as [Hc _].
  rewrite (IH c Hc Hpos). congruence.
Qed.

Lemma has_shape_dim (sh : list nat) (t : tensor) :
  has_shape sh t -> positive_dims sh = true -> dim t = length sh.
Proof.
  intros H P. unfold dim. now rewrite (has_shape_shape sh t H P).
Qed.

Lemma forallb_firstn {A : Type} (P : A -> bool) (n : nat) :
  forall l, forallb P l = true -> forallb P (firstn n l) = true.
Proof.
  induction n as [| n IH]; intros [| a l]; simpl; auto.
  intros H. apply andb_prop in H. destruct H as [Ha Hl].
  rewrite Ha. simpl. auto.
Qed.

Lemma forallb_skipn {A : Type} (P : A -> bool) (n : nat) :
  forall l, forallb P l = true -> forallb P (skipn n l) = true.
Proof.
  induction n as [| n IH]; intros [| a l]; simpl; auto.
  intros H. apply andb_prop in H. destruct H as [_ Hl]. auto.
Qed.

Lemma forallb_pyslice {A : Type} (P : A -> bool) (lo hi : Z) (l : list A) :
  forallb P l = true -> forallb P (pyslice lo hi l) = true.
Proof.
  intros H. unfold pyslice. now apply forallb_firstn, forallb_skipn.
Qed.

(** A slice within bounds has exactly [hi - lo] elements. *)
Lemma pyslice_length {A : Type} (lo hi : Z) (l : list A) :
  0 <= lo <= hi -> hi <= Z.of_nat (length l) ->
  length (pyslice lo hi l) = Z.to_nat (hi - lo).
Proof.
  intros Hlo Hhi. unfold pyslice, norm_index.
  rewrite length_firstn, length_skipn.
  destruct (Z.ltb_spec lo 0); destruct (Z.ltb_spec hi 0); lia.
Qed.

Lemma forallb_map_pointwise {A B : Type} (P : A -> bool) (Q : B -> bool) (f : A -> B) :
  forall l, (forall a, P a = true -> Q (f a) = true) ->
            forallb P l = true -> forallb Q (map f l) = true.
Proof.
  induction l as [| a l IH]; simpl; auto.
  intros Hf H. apply andb_prop in H. destruct H as [Ha Hl].
  rewrite (Hf a Ha). simpl. auto.
Qed.

(** Slicing axis [k] within bounds changes that extent to [hi - lo] and
    no other. *)
Lemma has_shape_slice_axis (k : nat) :
  forall (sh : list nat) (t : tensor) (lo hi : Z) (n : nat),
    has_shape sh t -> nth_error sh k = Some n ->
    0 <= lo <= hi -> hi <= Z.of_nat n ->
    has_shape (firstn k sh ++ Z.to_nat (hi - lo) :: skipn (S k) sh)
              (slice_axis k lo hi t).
Proof.
  unfold has_shape.
  induction k as [| k IH]; intros [| m sh] [v | l] lo hi n H Hn Hlo Hhi;
    simpl in Hn; try discriminate; simpl in H; try discriminate.
  - injection Hn as ->.
    apply andb_prop in H. destruct H as [Hlen Hall].
    apply Nat.eqb_eq in Hlen. subst n. simpl.
    rewrite pyslice_length by lia.
    rewrite Nat.eqb_refl. simpl.
    now apply forallb_pyslice.
  - apply andb_prop in H. destruct H as [Hlen Hall].
    simpl. rewrite length_map, Hlen. simpl.
    apply forallb_map_pointwise with (P := has_shapeb sh); auto.
    intros a Ha. eapply IH; eauto.
Qed.

Lemma has_shape_crop (c H W : nat) (h ch w cw : Z) (t : tensor) :
  has_shape [c; H; W] t ->
  0 <= h -> 0 <= ch -> h + ch <= Z.of_nat H ->
  0 <= w -> 0 <= cw -> w + cw <= Z.of_nat W ->
  has_shape [c; Z.to_nat ch; Z.to_nat cw] (crop h ch w cw t).
Proof.
  intros Ht Hh Hch HhH Hw Hcw HwW. unfold crop.
  pose proof (has_shape_slice_axis 1 [c; H; W] t h (h + ch) H Ht eq_refl) as H1.
  simpl in H1. replace (h + ch - h) with ch in H1 by lia.
  specialize (H1 ltac:(lia) ltac:(lia)).
  pose proof (has_shape_slice_axis 2 _ _ w (w + cw) W H1 eq_refl) as H2.
  simpl in H2. replace (w + cw - w) with cw in H2 by lia.
  apply H2; lia.
Qed.

(** ** The random source *)

Lemma zrange_In (lo hi v : Z) : In v (zrange lo hi) <-> lo <= v <= hi.
Proof.
  unfold zrange. rewrite in_map_iff. split.
  - intros (i & <- & Hi). apply in_seq in Hi. lia.
  - intros Hv. exists (Z.to_nat (v - lo)). split; [lia |].
    apply in_seq. lia.
Qed.

Lemma zrange_NoDup (lo hi : Z) : NoDup (zrange lo hi).
Proof.
  unfold zrange.
  generalize (seq_NoDup (Z.to_nat (hi - lo + 1)) 0).
  generalize (seq 0 (Z.to_nat (hi - lo + 1))).
  induction l as [| i l IH]; simpl; intros Hnd; [constructor |].
  inversion Hnd as [| ? ? Hi Hl]; subst.
  constructor; auto.
  rewrite in_map_iff. intros (j & Hj & Hin).
  assert (i = j) by lia. subst. contradiction.
Qed.

Lemma zrange_length (lo hi : Z) : length (zrange lo hi) = Z.to_nat (hi - lo + 1).
Proof. unfold zrange. now rewrite length_map, length_seq. Qed.

(** Every answer to a [RandPerm n] draw is a permutation of [0 .. n-1]. *)
Lemma insert_everywhere_Permutation (a : nat) (l : list nat) :
  forall p, In p (insert_everywhere a l) -> Permutation (a :: l) p.
Proof.
  induction l as [| b l IH]; simpl; intros p Hp.
  - destruct Hp as [<- | []]. apply Permutation_refl.
  - destruct Hp as [<- | Hp]; [apply Permutation_refl |].
    apply in_map_iff in Hp. destruct Hp as (q & <- & Hq).
    eapply perm_trans; [apply perm_swap |].
    apply perm_skip. now apply IH.
Qed.

Lemma perms_of_Permutation (l : list nat) :
  forall p, In p (perms_of l) -> Permutation l p.
Proof.
  induction l as [| a l IH]; simpl; intros p Hp.
  - destruct Hp as [<- | []]. apply Permutation_refl.
  - apply in_flat_map in Hp. destruct Hp as (q & Hq & Hp).
    eapply perm_trans; [apply perm_skip, IH, Hq |].
    now apply insert_everywhere_Permutation.
Qed.

Lemma perms_sound (n : nat) (p : list nat) :
  In p (perms n) -> Permutation (seq 0 n) p.
Proof. apply perms_of_Permutation. Qed.

Lemma flat_map_singleton {A B : Type} (g : A -> B) (l : list A) :
  flat_map (fun a => [g a]) l = map g l.
Proof. induction l as [| a l IH]; simpl; congruence. Qed.

Lemma flat_map_two_draws {A B C : Type} (g : A -> B -> C) (l1 : list A) (l2 : list B) :
  flat_map (fun a => flat_map (fun b => [g a b]) l2) l1 =
  map (fun ab => g (fst ab) (snd ab)) (list_prod l1 l2).
Proof.
  induction l1 as [| a l1 IH]; simpl; [reflexivity |].
  rewrite map_app, map_map, IH, flat_map_singleton. reflexivity.
Qed.

Lemma NoDup_list_prod {A B : Type} (l1 : list A) (l2 : list B) :
  NoDup l1 -> NoDup l2 -> NoDup (list_prod l1 l2).
Proof.
  intros H1 H2.
  induction H1 as [| a l1 Ha H1 IH]; simpl; [constructor |].
  apply NoDup_app; auto.
  - clear -H2. induction H2 as [| b l2 Hb H2 IH]; simpl; constructor; auto.
    rewrite in_map_iff. intros (b' & E & Hin). congruence.
  - intros [a' b]. rewrite in_map_iff, in_prod_iff.
    intros (b' & E & _) (Hin & _). congruence.
Qed.

(** ** RandomCrop *)

(** C7: on a tensor whose spatial extents are at least the crop size,
    random crop asks the random source for exactly two integers, the row
    offset in [0 .. H - ch] and the column offset in [0 .. W - cw] (both
    ends included), and slices [x] and [y] at that one pair of offsets with
    the configured size; every pair of offsets of the range is the outcome
    of exactly one answer of the source. *)
Theorem RandomCrop_one_offset_per_axis
        (c c' H W : nat) (ch cw : Z) (more : list Z) (x y : tensor) :
  has_shape [c; H; W] x -> has_shape [c'; H; W] y ->
  (0 < c)%nat -> (0 < c')%nat ->
  0 < ch <= Z.of_nat H -> 0 < cw <= Z.of_nat W ->
  let crop_size := ch :: cw :: more in
  let offsets := list_prod (zrange 0 (Z.of_nat H - ch)) (zrange 0 (Z.of_nat W - cw)) in
  let both := fun h w => PPair (PTensor (crop h ch w cw x)) (PTensor (crop h ch w cw y)) in
  let solo := fun h w => PTensor (crop h ch w cw x) in
  RandomCrop_call crop_size (PTensor x) (PTensor y) =
    RandInt 0 (Z.of_nat H - ch) (fun h =>
      RandInt 0 (Z.of_nat W - cw) (fun w => Ret (both h w))) /\
  RandomCrop_call crop_size (PTensor x) PNone =
    RandInt 0 (Z.of_nat H - ch) (fun h =>
      RandInt 0 (Z.of_nat W - cw) (fun w => Ret (solo h w))) /\
  (forall h w ans,
      draws (RandomCrop_call crop_size (PTensor x) (PTensor y))
            (AInt h :: AInt w :: ans) = 2%nat) /\
  outcomes (RandomCrop_call crop_size (PTensor x) (PTensor y)) =
    map (fun hw => Ok (both (fst hw) (snd hw))) offsets /\
  NoDup offsets /\
  (forall h w, In (h, w) offsets <->
               0 <= h <= Z.of_nat H - ch /\ 0 <= w <= Z.of_nat W - cw) /\
  (forall h w, In (h, w) offsets ->
               has_shape [c; Z.to_nat ch; Z.to_nat cw] (crop h ch w cw x) /\
               has_shape [c'; Z.to_nat ch; Z.to_nat cw] (crop h ch w cw y)).
Proof.
  intros Hx Hy Hc Hc' Hch Hcw crop_size offsets both solo.
  assert (Px : positive_dims [c; H; W] = true).
  { simpl. rewrite !andb_true_r, !andb_true_iff, !Nat.ltb_lt. lia. }
  assert (Py : positive_dims [c'; H; W] = true).
  { simpl. rewrite !andb_true_r, !andb_true_iff, !Nat.ltb_lt. lia. }
  assert (EH : (Z.of_nat H - ch <? 0) = false) by (apply Z.ltb_ge; lia).
  assert (EW : (Z.of_nat W - cw <? 0) = false) by (apply Z.ltb_ge; lia).
  assert (Etwo : RandomCrop_call crop_size (PTensor x) (PTensor y) =
                 RandInt 0 (Z.of_nat H - ch) (fun h =>
                   RandInt 0 (Z.of_nat W - cw) (fun w => Ret (both h w)))).
  { unfold RandomCrop_call, size_of, subscript3, getitem3, size, dim, randint.
    cbn [method bind].
    rewrite (has_shape_shape _ _ Hx Px), (has_shape_shape _ _ Hy Py).
    cbn [method bind nth_error crop_size getitem length Nat.ltb Nat.leb is_none].
    rewrite EH. cbn [bind]. rewrite EW. reflexivity. }
  assert (Eone : RandomCrop_call crop_size (PTensor x) PNone =
                 RandInt 0 (Z.of_nat H - ch) (fun h =>
                   RandInt 0 (Z.of_nat W - cw) (fun w => Ret (solo h w)))).
  { unfold RandomCrop_call, size_of, subscript3, getitem3, size, dim, randint.
    cbn [method bind].
    rewrite (has_shape_shape _ _ Hx Px).
    cbn [method bind nth_error crop_size getitem length Nat.ltb Nat.leb is_none].
    rewrite EH. cbn [bind]. rewrite EW. reflexivity. }
  assert (Hin : forall h w, In (h, w) offsets <->
                            0 <= h <= Z.of_nat H - ch /\ 0 <= w <= Z.of_nat W - cw).
  { intros h w. unfold offsets. rewrite in_prod_iff, !zrange_In. tauto. }
  split; [exact Etwo |].
  split; [exact Eone |].
  split.
  { rewrite Etwo. reflexivity. }
  split.
  { rewrite Etwo. cbn [outcomes].
    exact (flat_map_two_draws (fun h w => Ok (both h w)) _ _). }
  split; [apply NoDup_list_prod; apply zrange_NoDup |].
  split; [exact Hin |].
  intros h w Hhw. apply Hin in Hhw.
  split; apply has_shape_crop with (H := H) (W := W); auto; lia.
Qed.

(** ** Halving with ceiling and floor *)

Lemma Qfloor_half (s : Z) : Qfloor (inject_Z s / 2) = s / 2.
Proof.
  unfold Qfloor, Qdiv, Qmult, Qinv, inject_Z. simpl.
  now rewrite Z.mul_1_r.
Qed.

Lemma Qceiling_half (s : Z) : Qceiling (inject_Z s / 2) = - (- s / 2).
Proof.
  unfold Qceiling. f_equal.
  rewrite <- Qfloor_half. apply Qfloor_comp.
  rewrite inject_Z_opp. unfold Qdiv. ring.
Qed.

(** The two halves add up to the whole, and the ceiling half is the floor
    half or one more. *)
Lemma halves_split (s : Z) :
  - (- s / 2) + s / 2 = s /\ s / 2 <= - (- s / 2) <= s / 2 + 1.
Proof.
  pose proof (Z.div_mod s 2 ltac:(lia)).
  pose proof (Z.div_mod (- s) 2 ltac:(lia)).
  pose proof (Z.mod_pos_bound s 2 ltac:(lia)).
  pose proof (Z.mod_pos_bound (- s) 2 ltac:(lia)).
  lia.
Qed.

(** ** SpecialCrop *)

(** C8: the centre crop ([crop_type = 0]) of a tensor of spatial size
    [(H, W)] takes rows [lo1:hi1] and columns [lo2:hi2] where the margin
    before is the ceiling and the margin after the floor of half the
    difference between the extent and the crop size, so the crop has
    exactly the configured size; the same ranges slice [x] and [y]; for
    spatial size [(10, 10)] and crop size [(4, 4)] they are [3:7, 3:7]. *)
Theorem SpecialCrop_center_ranges
        (c H W : nat) (ch cw : Z) (more : list Z) (x y : tensor) :
  has_shape [c; H; W] x ->
  (0 < c)%nat -> (0 < H)%nat -> (0 < W)%nat -> (3 <= dim y)%nat ->
  let self := {| crop_size := ch :: cw :: more; crop_type := 0 |} in
  let d1 := Z.of_nat H - ch in
  let d2 := Z.of_nat W - cw in
  let lo1 := Qceiling (half_diff (Z.of_nat H) ch) in
  let hi1 := Z.of_nat H - Qfloor (half_diff (Z.of_nat H) ch) in
  let lo2 := Qceiling (half_diff (Z.of_nat W) cw) in
  let hi2 := Z.of_nat W - Qfloor (half_diff (Z.of_nat W) cw) in
  crop_indices self (PTensor x) = Ret ((lo1, hi1), (lo2, hi2)) /\
  (d1 <= 2 * lo1 <= d1 + 1 /\ d1 - 1 <= 2 * (Z.of_nat H - hi1) <= d1) /\
  (d2 <= 2 * lo2 <= d2 + 1 /\ d2 - 1 <= 2 * (Z.of_nat W - hi2) <= d2) /\
  (hi1 - lo1 = ch /\ hi2 - lo2 = cw) /\
  SpecialCrop_call self (PTensor x) (PTensor y) =
    Ret (PPair (PTensor (slice_axis 2 lo2 hi2 (slice_axis 1 lo1 hi1 x)))
               (PTensor (slice_axis 2 lo2 hi2 (slice_axis 1 lo1 hi1 y)))) /\
  SpecialCrop_call self (PTensor x) PNone =
    Ret (PTensor (slice_axis 2 lo2 hi2 (slice_axis 1 lo1 hi1 x))) /\
  (H = 10%nat -> W = 10%nat -> ch = 4 -> cw = 4 ->
   ((lo1, hi1), (lo2, hi2)) = ((3, 7), (3, 7))).
Proof.
  intros Hx Hc HH HW Hy self d1 d2 lo1 hi1 lo2 hi2.
  assert (Px : positive_dims [c; H; W] = true).
  { simpl. rewrite !andb_true_r, !andb_true_iff, !Nat.ltb_lt. lia. }
  assert (Ei : crop_indices self (PTensor x) = Ret ((lo1, hi1), (lo2, hi2))).
  { unfold crop_indices, size_of, size. cbn [method bind crop_type self Z.eqb].
    rewrite (has_shape_shape _ _ Hx Px). reflexivity. }
  assert (Dx : (dim x <? 3)%nat = false).
  { rewrite (has_shape_dim _ _ Hx Px). reflexivity. }
  assert (Dy : (dim y <? 3)%nat = false) by (apply Nat.ltb_ge; exact Hy).
  pose proof (halves_split d1) as [S1 B1].
  pose proof (halves_split d2) as [S2 B2].
  assert (L1 : lo1 = - (- d1 / 2)) by apply Qceiling_half.
  assert (F1 : hi1 = Z.of_nat H - d1 / 2)
    by (unfold hi1, half_diff; now rewrite Qfloor_half).
  assert (L2 : lo2 = - (- d2 / 2)) by apply Qceiling_half.
  assert (F2 : hi2 = Z.of_nat W - d2 / 2)
    by (unfold hi2, half_diff; now rewrite Qfloor_half).
  split; [exact Ei |].
  split; [lia |].
  split; [lia |].
  split; [unfold d1, d2 in *; lia |].
  split.
  { unfold SpecialCrop_call. rewrite Ei.
    cbn [bind subscript3 is_none]. unfold getitem3. rewrite Dx, Dy. reflexivity. }
  split.
  { unfold SpecialCrop_call. rewrite Ei.
    cbn [bind subscript3 is_none]. unfold getitem3. rewrite Dx. reflexivity. }
  intros -> -> -> ->. reflexivity.
Qed.

(** ** Pad *)

Lemma forallb_repeat {A : Type} (P : A -> bool) (a : A) (n : nat) :
  P a = true -> forallb P (repeat a n) = true.
Proof. intros Ha. induction n as [| n IH]; simpl; [reflexivity | now rewrite Ha]. Qed.

Lemma zeros_has_shape (sh : list nat) : has_shape sh (zeros sh).
Proof.
  unfold has_shape.
  induction sh as [| n sh IH]; simpl; [reflexivity |].
  rewrite repeat_length, Nat.eqb_refl. simpl.
  now apply forallb_repeat.
Qed.

Lemma padded_shape_positive (pads : list (nat * nat)) :
  forall sh, positive_dims sh = true -> positive_dims (padded_shape pads sh) = true.
Proof.
  unfold positive_dims, padded_shape.
  induction pads as [| [b a] pads IH]; intros [| d sh]; simpl; auto.
  intros H. apply andb_prop in H. destruct H as [Hd Hsh].
  apply Nat.ltb_lt in Hd.
  apply andb_true_intro. split; [apply Nat.ltb_lt; lia | auto].
Qed.

(** Padding a rectangular tensor gives a rectangular tensor whose extents
    have grown by the two borders. *)
Lemma pad_nd_has_shape (pads : list (nat * nat)) :
  forall (sh : list nat) (t : tensor),
    has_shape sh t -> length pads = length sh -> positive_dims sh = true ->
    has_shape (padded_shape pads sh) (pad_nd pads t).
Proof.
  induction pads as [| [b a] pads IH]; intros [| n sh] t Ht Hlen Hpos;
    simpl in Hlen; try discriminate.
  - destruct t; exact Ht.
  - destruct t as [v | l]; [discriminate Ht |].
    unfold has_shape in Ht. simpl in Ht.
    apply andb_prop in Ht. destruct Ht as [Hn Hall].
    apply Nat.eqb_eq in Hn.
    simpl in Hpos. apply andb_prop in Hpos. destruct Hpos as [Hpn Hpsh].
    apply Nat.ltb_lt in Hpn.
    injection Hlen as Hlen.
    assert (Hall' : forallb (has_shapeb (padded_shape pads sh)) (map (pad_nd pads) l) = true).
    { apply forallb_map_pointwise with (P := has_shapeb sh); auto.
      intros c Hc. apply IH; auto. }
    destruct l as [| c l]; [simpl in Hn; lia |].
    cbn [pad_nd]. cbn [map] in *.
    assert (Hc : has_shape (padded_shape pads sh) (pad_nd pads c)).
    { simpl in Hall'. apply andb_prop in Hall'. tauto. }
    rewrite (has_shape_shape _ _ Hc (padded_shape_positive pads sh Hpsh)).
    unfold has_shape, padded_shape. cbn [combine map fst snd has_shapeb].
    rewrite !length_app, !repeat_length. cbn [length]. rewrite length_map.
    simpl in Hn.
    apply andb_true_intro. split.
    + apply Nat.eqb_eq. lia.
    + rewrite !forallb_app. fold (padded_shape pads sh).
      rewrite !forallb_repeat by apply zeros_has_shape.
      rewrite Hall'. reflexivity.
Qed.

Lemma Qfloor_plus_Z (q : Q) (z : Z) : Qfloor (q + inject_Z z) = Qfloor q + z.
Proof.
  destruct q as [n p]. unfold Qfloor, Qplus, inject_Z. simpl.
  rewrite Pos.mul_1_r, Z.mul_1_r.
  apply Z.div_add. discriminate.
Qed.

Lemma Qceiling_minus_Z (q : Q) (z : Z) : Qceiling (q - inject_Z z) = Qceiling q - z.
Proof.
  unfold Qceiling.
  assert (E : (- (q - inject_Z z) == - q + inject_Z z)%Q) by ring.
  rewrite (Qfloor_comp _ _ E), Qfloor_plus_Z. lia.
Qed.

(** The split of one axis. *)
Lemma pad_split_ok (axis : nat * Q) :
  let s := Z.max 0 (Qceiling (snd axis - inject_Z (Z.of_nat (fst axis)))) in
  split_ok axis (Qceiling (inject_Z s / 2), Qfloor (inject_Z s / 2)).
Proof.
  intros s. unfold split_ok. fold s.
  rewrite Qceiling_half, Qfloor_half. cbn [fst snd].
  pose proof (halves_split s) as [S B].
  assert (Hs : 0 <= s) by (unfold s; lia).
  assert (0 <= s / 2) by (apply Z.div_pos; lia).
  repeat split; try lia.
  intros Hle.
  assert (Hz : s = 0).
  { unfold s. apply Z.max_l.
    change 0 with (Qceiling 0).
    apply Qceiling_resp_le.
    apply Qle_minus_iff in Hle. apply Qle_minus_iff.
    setoid_replace (0 + - (snd axis - inject_Z (Z.of_nat (fst axis))))%Q
      with (inject_Z (Z.of_nat (fst axis)) + - snd axis)%Q by ring.
    exact Hle. }
  rewrite Hz. reflexivity.
Qed.

Lemma pad_sizes_cons (d : nat) (sh : list nat) (tgt : Q) (size : list Q) :
  pad_sizes (d :: sh) (tgt :: size) =
  (let s := Z.max 0 (Qceiling (tgt - inject_Z (Z.of_nat d))) in
   (Qceiling (inject_Z s / 2), Qfloor (inject_Z s / 2))) :: pad_sizes sh size.
Proof. reflexivity. Qed.

Lemma pad_sizes_length (sh : list nat) (size : list Q) :
  length (pad_sizes sh size) = Nat.min (length sh) (length size).
Proof.
  unfold pad_sizes, shape_diffs. now rewrite !length_map, length_combine.
Qed.

Lemma pad_sizes_split (sh : list nat) :
  forall size, Forall2 split_ok (combine sh size) (pad_sizes sh size).
Proof.
  induction sh as [| d sh IH]; intros [| tgt size]; try constructor.
  - exact (pad_split_ok (d, tgt)).
  - apply IH.
Qed.

Lemma pad_sizes_nonneg (sh : list nat) :
  forall size,
    existsb (fun p => (fst p <? 0) || (snd p <? 0)) (pad_sizes sh size) = false.
Proof.
  induction sh as [| d sh IH]; intros [| tgt size]; try reflexivity.
  rewrite pad_sizes_cons. cbn [existsb]. rewrite IH.
  pose proof (pad_split_ok (d, tgt)) as (_ & Hb & _).
  cbn [fst snd] in *.
  rewrite orb_false_r. apply orb_false_intro; apply Z.ltb_ge; lia.
Qed.

Lemma padded_shape_pad_sizes (sh : list nat) :
  forall size,
    padded_shape (pad_widths (pad_sizes sh size)) sh = map padded_dim (combine sh size).
Proof.
  induction sh as [| d sh IH]; intros [| tgt size]; try reflexivity.
  rewrite pad_sizes_cons. unfold padded_shape, pad_widths in *.
  cbn [map combine fst snd]. rewrite IH. f_equal.
  pose proof (pad_split_ok (d, tgt)) as (Hs & Hb & _).
  cbn [fst snd] in *. unfold padded_dim. cbn [fst snd].
  rewrite Qceiling_minus_Z in Hs, Hb |- *. lia.
Qed.

(** C9: [Pad] splits the clamped difference between the target and the
    extent of each axis into a ceiling half before and a floor half after
    (nothing for an axis already at or above its target), pads [x] with
    these widths up to the target, and pads [y] with the very same widths;
    a tensor of shape [(3, 5, 5)] padded to [(3, 8, 8)] has shape
    [(3, 8, 8)]. *)
Theorem Pad_pads_each_axis_to_target
        (sh : list nat) (size : list Q) (x y : tensor) :
  has_shape sh x -> positive_dims sh = true ->
  length size = length sh -> dim y = length sh ->
  let pads := pad_sizes sh size in
  Forall2 split_ok (combine sh size) pads /\
  Pad_call size (PTensor x) PNone = Ret (PTensor (pad_nd (pad_widths pads) x)) /\
  Pad_call size (PTensor x) (PTensor y) =
    Ret (PPair (PTensor (pad_nd (pad_widths pads) x))
               (PTensor (pad_nd (pad_widths pads) y))) /\
  has_shape (map padded_dim (combine sh size)) (pad_nd (pad_widths pads) x) /\
  (sh = [3; 5; 5]%nat -> size = [3; 8; 8]%Q ->
   pads = [(0, 0); (2, 1); (2, 1)] /\
   has_shape [3; 8; 8]%nat (pad_nd (pad_widths pads) x)).
Proof.
  intros Hx Hpos Hsize Hy pads.
  assert (Hlen : length pads = length sh).
  { unfold pads. rewrite pad_sizes_length. lia. }
  assert (Ex : np_pad x pads = Ret (pad_nd (pad_widths pads) x)).
  { unfold np_pad, pads. rewrite pad_sizes_nonneg. fold pads.
    rewrite Hlen, (has_shape_dim _ _ Hx Hpos), Nat.eqb_refl. reflexivity. }
  assert (Ey : np_pad y pads = Ret (pad_nd (pad_widths pads) y)).
  { unfold np_pad, pads. rewrite pad_sizes_nonneg. fold pads.
    rewrite Hlen, Hy, Nat.eqb_refl. reflexivity. }
  assert (Hshape : has_shape (map padded_dim (combine sh size))
                             (pad_nd (pad_widths pads) x)).
  { rewrite <- padded_shape_pad_sizes. fold pads.
    apply pad_nd_has_shape; auto.
    unfold pad_widths. now rewrite length_map. }
  split; [apply pad_sizes_split |].
  split.
  { unfold Pad_call. cbn [method bind is_none].
    rewrite (has_shape_shape _ _ Hx Hpos). fold pads. now rewrite Ex. }
  split.
  { unfold Pad_call. cbn [method bind is_none].
    rewrite (has_shape_shape _ _ Hx Hpos). fold pads. now rewrite Ex, Ey. }
  split; [exact Hshape |].
  intros Esh Esize. subst sh size. split; [reflexivity | exact Hshape].
Qed.

(** ** TypeCast *)

(** C10: the tag ['int'] makes the constructor look up a tensor class that
    the library does not have, which raises at construction; the other
    five tags resolve to their classes; any other string is stored as it
    is, construction does not raise, and the string reaches the tensor's
    [type] method only when the transform is called. *)
Theorem TypeCast_int_tag_raises_at_construction
        (type_method : tensor -> dtype_arg -> M tensor) (s : string) (x : tensor) :
  recognized_tag s = false ->
  TypeCast_init (DStr "int") = Raise AttributeError /\
  TypeCast_init (DStr "byte") = Ret {| dtype := DType ByteTensor |} /\
  TypeCast_init (DStr "double") = Ret {| dtype := DType DoubleTensor |} /\
  TypeCast_init (DStr "float") = Ret {| dtype := DType FloatTensor |} /\
  TypeCast_init (DStr "long") = Ret {| dtype := DType LongTensor |} /\
  TypeCast_init (DStr "short") = Ret {| dtype := DType ShortTensor |} /\
  TypeCast_init (DStr s) = Ret {| dtype := DStr s |} /\
  TypeCast_call type_method {| dtype := DStr s |} (PTensor x) PNone =
    (x' <- type_method x (DStr s);; Ret (PTensor x')).
Proof.
  intros Hs.
  repeat (split; [reflexivity |]).
  split; [| reflexivity].
  unfold recognized_tag in Hs. cbn [existsb] in Hs.
  repeat (apply orb_false_elim in Hs; destruct Hs as [? Hs]).
  unfold TypeCast_init.
  repeat match goal with E : (s =? _)%string = false |- _ => rewrite E; clear E end.
  reflexivity.
Qed.

(** ** One-stream mode *)

(** C1: two units break one-stream mode.  [ToCuda] has no default for [y],
    so the composer's one-argument call raises [TypeError]; [RandomOrder]
    returns the pair [(x, None)] instead of one tensor, so a pipeline
    holding it returns a pair although [y] was absent. *)
Theorem one_stream_broken_by_ToCuda_and_RandomOrder :
  (forall (device : Z) (x : pyval), ToCuda device x None = Raise TypeError) /\
  (forall (device : Z) (x : pyval),
      Compose_call [ToCuda device] x PNone = Raise TypeError) /\
  (forall x : pyval, leaves is_pair (Compose_call [RandomOrder] x PNone)) /\
  outcomes (Compose_call [RandomOrder] (PTensor (vec [10])) PNone) =
    [Ok (PPair (PTensor (vec [10])) PNone)].
Proof.
  split; [reflexivity |].
  split; [reflexivity |].
  split; [| reflexivity].
  intros x. unfold Compose_call. cbn [is_none Compose_one].
  apply leaves_bind with (P := is_pair); [| intros r Hr; exact Hr].
  unfold RandomOrder, with_default, RandomOrder_call. cbn [is_none].
  repeat (apply leaves_bind with (P := fun _ => True);
          [apply leaves_trivial | intros ? _]).
  exact I.
Qed.

(** ** RandomOrder *)

(** One draw, and the same order for both streams. *)
Lemma RandomOrder_one_draw (x y : tensor) :
  exists k,
    RandomOrder_call (PTensor x) (PTensor y) = RandPerm (dim x) k /\
    forall order,
      Meq (k order)
          (x' <- index_select0 order x;;
           y' <- index_select0 order y;;
           Ret (PPair (PTensor x') (PTensor y'))).
Proof.
  eexists. split; [reflexivity |].
  intro order. cbn [bind is_none method].
  apply Meq_bind; [apply Meq_refl | intro x'].
  eapply Meq_trans; [apply bind_assoc_eq |].
  apply Meq_bind; [apply Meq_refl | intro y']. apply Meq_refl.
Qed.

(** C2: the permutation is drawn over [x.dim()] indices, the number of
    axes, not over the extent of the channel axis.  On an image of shape
    [(4, 1, 1)] a permutation of [0, 1, 2] is drawn and every outcome keeps
    three of the four channels; on a grey-scale image of shape [(1, 2, 2)]
    every outcome is an index error. *)
Theorem RandomOrder_permutes_as_many_indices_as_axes :
  shape rgba = [4; 1; 1]%nat /\
  (exists k, RandomOrder_call (PTensor rgba) (PTensor rgba) = RandPerm 3 k) /\
  outcomes (RandomOrder_call (PTensor rgba) (PTensor rgba)) =
    map (fun p => Ok (PPair (PTensor (image p)) (PTensor (image p))))
        [[1; 2; 3]; [2; 1; 3]; [2; 3; 1]; [1; 3; 2]; [3; 1; 2]; [3; 2; 1]] /\
  shape gray = [1; 2; 2]%nat /\
  outcomes (RandomOrder_call (PTensor gray) PNone) = repeat (Err RuntimeError) 6.
Proof.
  split; [reflexivity |].
  split; [eexists; reflexivity |].
  split; [vm_compute; reflexivity |].
  split; [reflexivity |].
  vm_compute; reflexivity.
Qed.

(** ** RangeNormalize *)

Lemma flatten_repeat_scalar (v : Q) (n : nat) :
  flat_map flatten (repeat (Scalar v) n) = repeat v n.
Proof. induction n as [| n IH]; simpl; congruence. Qed.

Lemma fold_qmin_repeat (v : Q) (n : nat) : fold_left qmin (repeat v n) v = v.
Proof.
  induction n as [| n IH]; simpl; auto.
  unfold qmin at 2. now destruct (Qle_bool v v).
Qed.

Lemma fold_qmax_repeat (v : Q) (n : nat) : fold_left qmax (repeat v n) v = v.
Proof.
  induction n as [| n IH]; simpl; auto.
  unfold qmax at 2. now destruct (Qle_bool v v).
Qed.

Lemma fdiv_by_difference_of_equals (a v : Q) :
  fdiv a (fsub v v) = Raise ZeroDivisionError.
Proof.
  unfold fdiv, fsub.
  assert (E : Qeq_bool (Qred (v - v)) 0 = true).
  { apply Qeq_bool_iff. rewrite Qred_correct. ring. }
  now rewrite E.
Qed.

(** The guard of the x stream: after the epsilon step the divisor is not
    zero. *)
Lemma x_divisor_nonzero (min_val max_val : Q) :
  Qeq_bool
    (fsub max_val (if Qeq_bool min_val max_val then fadd min_val eps else min_val))
    0 = false.
Proof.
  unfold fsub, fadd, eps.
  destruct (Qeq_bool min_val max_val) eqn:E.
  - apply Qeq_bool_iff in E.
    destruct (Qeq_bool _ 0) eqn:E0; [| reflexivity].
    apply Qeq_bool_iff in E0. rewrite !Qred_correct in E0. lra.
  - apply Qeq_bool_neq in E.
    destruct (Qeq_bool _ 0) eqn:E0; [| reflexivity].
    apply Qeq_bool_iff in E0. rewrite Qred_correct in E0.
    exfalso. apply E. lra.
Qed.

(** In one-stream mode a non-empty tensor is always normalised, constant
    or not. *)
Lemma RangeNormalize_x_stream_never_raises (self : RangeNormalize) (x : tensor) :
  flatten x <> [] -> never_raises (RangeNormalize_call self (PTensor x) PNone).
Proof.
  intros Hne. unfold RangeNormalize_call, th_min, th_max, tmin, tmax.
  destruct (flatten x) as [| v vs]; [congruence |].
  assert (Hdiv : forall lo hi,
             never_raises
               (a <- fdiv (fsub (max_range self) (min_range self))
                          (fsub hi (if Qeq_bool lo hi then fadd lo eps else lo));;
                x_norm <- mul_add (PTensor x) a
                            (fsub (max_range self) (fmul a hi));;
                if is_none PNone then Ret (PTensor x_norm)
                else
                  (min_val <- th_min PNone;;
                   max_val <- th_max PNone;;
                   a0 <- fdiv (fsub (max_range self) (min_range self))
                              (fsub max_val min_val);;
                   y_norm <- mul_add PNone a0
                               (fsub (max_range self) (fmul a0 max_val));;
                   Ret (PPair (PTensor x_norm) (PTensor y_norm))))).
  { intros lo hi. unfold fdiv. rewrite x_divisor_nonzero. exact I. }
  destruct (fixed_min self), (fixed_max self); cbn [bind]; apply Hdiv.
Qed.

(** C3: the y stream has no epsilon step.  With [RangeNormalize(0, 1)], a
    constant [x] is normalised (the guard works on the x stream), but a
    constant [y] makes the call divide by zero; in general no call with a
    constant-valued [y] returns. *)
Theorem RangeNormalize_constant_y_divides_by_zero :
  RangeNormalize_call unit_range (PTensor (vec [0; 1])) (PTensor (vec [5; 5])) =
    Raise ZeroDivisionError /\
  RangeNormalize_call unit_range (PTensor (vec [5; 5])) PNone =
    Ret (PTensor (vec [1; 1])) /\
  RangeNormalize_call unit_range (PTensor (vec [5; 5])) (PTensor (vec [0; 1])) =
    Ret (PPair (PTensor (vec [1; 1])) (PTensor (vec [0; 1]))) /\
  (forall (self : RangeNormalize) (x : pyval) (v : Q) (n : nat),
      leaves (fun _ => False)
             (RangeNormalize_call self x (PTensor (Node (repeat (Scalar v) (S n)))))).
Proof.
  split; [vm_compute; reflexivity |].
  split; [vm_compute; reflexivity |].
  split; [vm_compute; reflexivity |].
  intros self x v n. unfold RangeNormalize_call.
  do 4 (apply leaves_bind with (P := fun _ => True);
        [apply leaves_trivial | intros ? _]).
  cbn [is_none th_min th_max]. unfold tmin, tmax.
  cbn [flatten repeat flat_map app]. rewrite flatten_repeat_scalar.
  rewrite fold_qmin_repeat, fold_qmax_repeat. cbn [bind].
  rewrite fdiv_by_difference_of_equals. exact I.
Qed.

(** The two-stream call is the one-stream call on [x] followed by the
    affine map of [y] from the observed minimum and maximum of [y]: the
    statistics of one stream never reach the other, and neither do
    [fixed_min] and [fixed_max] reach [y]. *)
Lemma RangeNormalize_streams_independent (self : RangeNormalize) (x : pyval) (y : tensor) :
  Meq (RangeNormalize_call self x (PTensor y))
      (xn <- RangeNormalize_call self x PNone;;
       yn <- observed_stream (min_range self) (max_range self) (PTensor y);;
       Ret (PPair xn (PTensor yn))).
Proof.
  unfold RangeNormalize_call, observed_stream. cbn [is_none].
  repeat (eapply Meq_trans; [| apply Meq_sym, bind_assoc_eq];
          apply Meq_bind; [apply Meq_refl | intro]).
  cbn [bind].
  repeat (eapply Meq_trans; [| apply Meq_sym, bind_assoc_eq];
          apply Meq_bind; [apply Meq_refl | intro]).
  apply Meq_refl.
Qed.

(** C4: the y stream ignores [fixed_min] and [fixed_max].  With
    [RangeNormalize(0, 1, fixed_min=0, fixed_max=255)], [x] is mapped with
    the fixed values (128 goes to 128/255) while [y] is mapped with its own
    observed minimum and maximum (128 goes to 1). *)
Theorem RangeNormalize_y_ignores_fixed_values :
  RangeNormalize_call byte_range
                      (PTensor (Node [vec [0; 128; 255]]))
                      (PTensor (Node [vec [0; 128]])) =
    Ret (PPair (PTensor (Node [Node [Scalar 0; Scalar (128 # 255); Scalar 1]]))
               (PTensor (Node [vec [0; 1]]))) /\
  observed_stream 0 1 (PTensor (Node [vec [0; 128]])) = Ret (Node [vec [0; 1]]) /\
  (forall (lo hi : Q) (fmin fmax : option Q) (x : pyval) (y : tensor),
      Meq (RangeNormalize_call
             {| min_range := lo; max_range := hi;
                fixed_min := fmin; fixed_max := fmax |} x (PTensor y))
          (xn <- RangeNormalize_call
                   {| min_range := lo; max_range := hi;
                      fixed_min := fmin; fixed_max := fmax |} x PNone;;
           yn <- observed_stream lo hi (PTensor y);;
           Ret (PPair xn (PTensor yn)))).
Proof.
  split; [vm_compute; reflexivity |].
  split; [vm_compute; reflexivity |].
  intros lo hi fmin fmax x y.
  apply (RangeNormalize_streams_independent
           {| min_range := lo; max_range := hi;
              fixed_min := fmin; fixed_max := fmax |}).
Qed.

(** ** The composer follows the list order *)

Lemma Compose_two_app (ts1 ts2 : list transform) :
  forall x y,
    Meq (Compose_two (ts1 ++ ts2) x y)
        (r <- Compose_two ts1 x y;;
         xy <- unpack2 r;;
         Compose_two ts2 (fst xy) (snd xy)).
Proof.
  induction ts1 as [| t ts1 IH]; intros x y.
  - apply Meq_refl.
  - cbn [app Compose_two].
    eapply Meq_trans; [| apply Meq_sym, bind_assoc_eq].
    apply Meq_bind; [apply Meq_refl | intro r].
    eapply Meq_trans; [| apply Meq_sym, bind_assoc_eq].
    apply Meq_bind; [apply Meq_refl | intro xy].
    apply IH.
Qed.

(** ** The theorems at concrete inputs *)

Lemma Compose_two_units_stepwise_witness :
  two_stream (ToCuda 0) /\ two_stream (RandomCrop [2; 2]) /\
  Meq (Compose_call [ToCuda 0; RandomCrop [2; 2]] (PTensor grid3) (PTensor grid3))
      (r <- ToCuda 0 (PTensor grid3) (Some (PTensor grid3));;
       apply_to_result (RandomCrop [2; 2]) r).
Proof.
  split; [apply ToCuda_two_stream |].
  split; [apply RandomCrop_two_stream |].
  apply (Compose_two_units_stepwise (ToCuda 0) (RandomCrop [2; 2]) grid3 grid3).
  - apply ToCuda_two_stream.
  - apply RandomCrop_two_stream.
Defined.

Lemma RandomCrop_one_offset_per_axis_witness :
  has_shape [1; 3; 3]%nat grid3 /\ 0 < 2 <= Z.of_nat 3 /\
  outcomes (RandomCrop_call [2; 2] (PTensor grid3) (PTensor grid3)) =
    map (fun hw => Ok (PPair (PTensor (crop (fst hw) 2 (snd hw) 2 grid3))
                             (PTensor (crop (fst hw) 2 (snd hw) 2 grid3))))
        [(0, 0); (0, 1); (1, 0); (1, 1)].
Proof.
  split; [reflexivity |].
  split; [lia |].
  pose proof (RandomCrop_one_offset_per_axis
                1 1 3 3 2 2 [] grid3 grid3
                eq_refl eq_refl
                ltac:(lia) ltac:(lia) ltac:(lia) ltac:(lia)) as Hcrop.
  cbv zeta in Hcrop.
  destruct Hcrop as (_ & _ & _ & Hout & _).
  exact Hout.
Defined.

Lemma SpecialCrop_center_ranges_witness :
  has_shape [3; 10; 10]%nat (zeros [3; 10; 10]%nat) /\
  (3 <= dim (zeros [1; 10; 10]%nat))%nat /\
  crop_indices {| crop_size := [4; 4]; crop_type := 0 |}
               (PTensor (zeros [3; 10; 10]%nat)) = Ret ((3, 7), (3, 7)).
Proof.
  split; [reflexivity |].
  split; [vm_compute; lia |].
  pose proof (SpecialCrop_center_ranges
                3 10 10 4 4 [] (zeros [3; 10; 10]%nat) (zeros [1; 10; 10]%nat)
                eq_refl
                ltac:(lia) ltac:(lia) ltac:(lia) ltac:(vm_compute; lia)) as Hc.
  cbv zeta in Hc.
  destruct Hc as (Hidx & _ & _ & _ & _ & _ & Hex).
  rewrite Hidx. apply f_equal.
  exact (Hex eq_refl eq_refl eq_refl eq_refl).
Defined.

Lemma Pad_pads_each_axis_to_target_witness :
  has_shape [3; 5; 5]%nat (zeros [3; 5; 5]%nat) /\
  positive_dims [3; 5; 5]%nat = true /\
  pad_sizes [3; 5; 5]%nat [3; 8; 8]%Q = [(0, 0); (2, 1); (2, 1)] /\
  has_shape [3; 8; 8]%nat
            (pad_nd (pad_widths (pad_sizes [3; 5; 5]%nat [3; 8; 8]%Q))
                    (zeros [3; 5; 5]%nat)).
Proof.
  split; [reflexivity |].
  split; [reflexivity |].
  pose proof (Pad_pads_each_axis_to_target
                [3; 5; 5]%nat [3; 8; 8]%Q (zeros [3; 5; 5]%nat) (zeros [3; 5; 5]%nat)
                eq_refl eq_refl eq_refl eq_refl) as Hp.
  cbv zeta in Hp.
  destruct Hp as (_ & _ & _ & _ & Hex).
  exact (Hex eq_refl eq_refl).
Defined.

Lemma TypeCast_int_tag_raises_at_construction_witness :
  recognized_tag "uint8" = false /\
  TypeCast_init (DStr "int") = Raise AttributeError /\
  TypeCast_init (DStr "uint8") = Ret {| dtype := DStr "uint8" |}.
Proof.
  split; [reflexivity |].
  pose proof (TypeCast_int_tag_raises_at_construction
                type_identity "uint8" (vec [1]) eq_refl) as Ht.
  destruct Ht as (Hint & _ & _ & _ & _ & _ & Hother & _).
  split; [exact Hint | exact Hother].
Defined.

(** * Further properties of the transforms *)

(** ** Pipelines of pipelines *)

Lemma Compose_two_closed (ts : list transform) :
  Forall two_stream ts ->
  forall x y : tensor, leaves is_tensor_pair (Compose_two ts (PTensor x) (PTensor y)).
Proof.
  induction 1 as [| t ts Ht Hts IH]; intros x y; cbn [Compose_two].
  - exact I.
  - apply leaves_bind with (P := is_tensor_pair); [apply Ht |].
    intros r Hr.
    destruct r as [| t0 | [| a |] [| b |]]; simpl in Hr; try contradiction.
    cbn [unpack2 bind fst snd]. apply IH.
Qed.

Lemma Compose_one_closed (ts : list transform) :
  Forall one_stream ts ->
  forall x : tensor, leaves is_tensor (Compose_one ts (PTensor x)).
Proof.
  induction 1 as [| t ts Ht Hts IH]; intros x; cbn [Compose_one].
  - exact I.
  - apply leaves_bind with (P := is_tensor); [apply Ht |].
    intros r Hr. destruct r as [| t0 |]; simpl in Hr; try contradiction.
    apply IH.
Qed.

Lemma Compose_one_app (ts1 ts2 : list transform) :
  forall x, Meq (Compose_one (ts1 ++ ts2) x)
                (r <- Compose_one ts1 x;; Compose_one ts2 r).
Proof.
  induction ts1 as [| t ts1 IH]; intros x.
  - apply Meq_refl.
  - cbn [app Compose_one].
    eapply Meq_trans; [| apply Meq_sym, bind_assoc_eq].
    apply Meq_bind; [apply Meq_refl | intro r]. apply IH.
Qed.

(** X1: a composer whose units all honour the stream contracts honours
    them itself, so a pipeline can be used as a unit of another pipeline:
    on a tensor it returns a tensor, on a pair of tensors a pair of
    tensors. *)
Theorem Compose_of_units_is_a_unit (ts : list transform) :
  Forall one_stream ts -> Forall two_stream ts ->
  one_stream (Compose ts) /\ two_stream (Compose ts).
Proof.
  intros H1 H2. split.
  - intros x. unfold Compose, with_default, Compose_call. cbn [is_none].
    now apply Compose_one_closed.
  - intros x y. unfold Compose, with_default, Compose_call. cbn [is_none].
    now apply Compose_two_closed.
Qed.

(** X2: in one-stream mode the composer of a concatenated list is the
    composer of the first part followed by the composer of the second, for
    any units whatever: same draws in the same order, same result or
    exception. *)
Theorem Compose_one_stream_concat (ts1 ts2 : list transform) (x : pyval) :
  Meq (Compose (ts1 ++ ts2) x None)
      (r <- Compose ts1 x None;; Compose ts2 r None).
Proof.
  unfold Compose, with_default, Compose_call. cbn [is_none].
  apply Compose_one_app.
Qed.

(** X3: in two-stream mode a pipeline can be cut in two when the units of
    the first part honour the two-stream contract: the composer of the
    whole list is the composer of the second part applied to the pair
    returned by the composer of the first part. *)
Theorem Compose_two_stream_concat (ts1 ts2 : list transform) (x y : tensor) :
  Forall two_stream ts1 ->
  Meq (Compose_call (ts1 ++ ts2) (PTensor x) (PTensor y))
      (r <- Compose ts1 (PTensor x) (Some (PTensor y));;
       apply_to_result (Compose ts2) r).
Proof.
  intros H1.
  unfold Compose, with_default, Compose_call. cbn [is_none].
  eapply Meq_trans; [apply Compose_two_app |].
  apply Meq_bind_leaves with (P := is_tensor_pair);
    [now apply Compose_two_closed |].
  intros r Hr.
  destruct r as [| t0 | [| a |] [| b |]]; simpl in Hr; try contradiction.
  unfold apply_to_result. cbn [unpack2 bind fst snd is_none].
  apply Meq_refl.
Qed.

(** ** RandomCrop: a crop larger than the image *)

(** X4: when the crop is taller than the image, random crop raises
    [ValueError] before any draw; when only its width exceeds the image,
    the row offset is drawn and then [ValueError] is raised.  In neither
    case is anything returned. *)
Theorem RandomCrop_oversize_raises
        (c H W : nat) (ch cw : Z) (more : list Z) (x : tensor) (y : pyval) :
  has_shape [c; H; W] x -> positive_dims [c; H; W] = true ->
  (Z.of_nat H < ch ->
   RandomCrop_call (ch :: cw :: more) (PTensor x) y = Raise ValueError) /\
  (ch <= Z.of_nat H -> Z.of_nat W < cw ->
   RandomCrop_call (ch :: cw :: more) (PTensor x) y =
     RandInt 0 (Z.of_nat H - ch) (fun _ => Raise ValueError)).
Proof.
  intros Hx Px. split.
  - intros Hch.
    assert (E : (Z.of_nat H - ch <? 0) = true) by (apply Z.ltb_lt; lia).
    unfold RandomCrop_call, size_of, size, randint. cbn [method bind].
    rewrite (has_shape_shape _ _ Hx Px). cbn [nth_error getitem bind].
    now rewrite E.
  - intros Hch Hcw.
    assert (E1 : (Z.of_nat H - ch <? 0) = false) by (apply Z.ltb_ge; lia).
    assert (E2 : (Z.of_nat W - cw <? 0) = true) by (apply Z.ltb_lt; lia).
    unfold RandomCrop_call, size_of, size, randint. cbn [method bind].
    rewrite (has_shape_shape _ _ Hx Px). cbn [nth_error getitem bind].
    rewrite E1. cbn [bind]. now rewrite E2.
Qed.

(** ** SpecialCrop: every placement is a window of the crop size *)

Lemma getitem3_crop (t : tensor) (lo1 hi1 lo2 hi2 ch cw : Z) :
  (dim t <? 3)%nat = false -> hi1 = lo1 + ch -> hi2 = lo2 + cw ->
  getitem3 t lo1 hi1 lo2 hi2 = Ret (crop lo1 ch lo2 cw t).
Proof.
  intros Hd -> ->. unfold getitem3, crop. now rewrite Hd.
Qed.

(** X5: for each of the five crop types the constructor accepts, and a
    crop size that fits in the image, special crop returns a window of
    exactly the configured size that lies inside the image, and it is the
    same window for [x] and [y]. *)
Theorem SpecialCrop_window_of_crop_size
        (c c' H W : nat) (ch cw ct : Z) (more : list Z) (x y : tensor) :
  has_shape [c; H; W] x -> has_shape [c'; H; W] y ->
  positive_dims [c; H; W] = true -> positive_dims [c'; H; W] = true ->
  0 <= ch <= Z.of_nat H -> 0 <= cw <= Z.of_nat W -> 0 <= ct <= 4 ->
  let self := {| crop_size := ch :: cw :: more; crop_type := ct |} in
  SpecialCrop_init (ch :: cw :: more) ct = Ret self /\
  exists lo1 lo2 : Z,
    (0 <= lo1 /\ lo1 + ch <= Z.of_nat H) /\
    (0 <= lo2 /\ lo2 + cw <= Z.of_nat W) /\
    SpecialCrop_call self (PTensor x) (PTensor y) =
      Ret (PPair (PTensor (crop lo1 ch lo2 cw x)) (PTensor (crop lo1 ch lo2 cw y))) /\
    SpecialCrop_call self (PTensor x) PNone = Ret (PTensor (crop lo1 ch lo2 cw x)) /\
    has_shape [c; Z.to_nat ch; Z.to_nat cw] (crop lo1 ch lo2 cw x) /\
    has_shape [c'; Z.to_nat ch; Z.to_nat cw] (crop lo1 ch lo2 cw y).
Proof.
  intros Hx Hy Px Py Hch Hcw Hct self.
  assert (Dx : (dim x <? 3)%nat = false)
    by (rewrite (has_shape_dim _ _ Hx Px); reflexivity).
  assert (Dy : (dim y <? 3)%nat = false)
    by (rewrite (has_shape_dim _ _ Hy Py); reflexivity).
  pose proof (halves_split (Z.of_nat H - ch)) as [S1 B1].
  pose proof (halves_split (Z.of_nat W - cw)) as [S2 B2].
  assert (F1 : 0 <= (Z.of_nat H - ch) / 2) by (apply Z.div_pos; lia).
  assert (F2 : 0 <= (Z.of_nat W - cw) / 2) by (apply Z.div_pos; lia).
  assert (Hcases : ct = 0 \/ ct = 1 \/ ct = 2 \/ ct = 3 \/ ct = 4) by lia.
  split.
  { unfold SpecialCrop_init.
    destruct Hcases as [-> | [-> | [-> | [-> | ->]]]]; reflexivity. }
  assert (Hwin : forall lo1 lo2 hi1 hi2,
             crop_indices self (PTensor x) = Ret ((lo1, hi1), (lo2, hi2)) ->
             hi1 = lo1 + ch -> hi2 = lo2 + cw ->
             SpecialCrop_call self (PTensor x) (PTensor y) =
               Ret (PPair (PTensor (crop lo1 ch lo2 cw x))
                          (PTensor (crop lo1 ch lo2 cw y))) /\
             SpecialCrop_call self (PTensor x) PNone =
               Ret (PTensor (crop lo1 ch lo2 cw x))).
  { intros lo1 lo2 hi1 hi2 Ei E1 E2. unfold SpecialCrop_call. rewrite Ei.
    cbn [bind subscript3 is_none].
    rewrite (getitem3_crop x _ _ _ _ ch cw Dx E1 E2).
    rewrite (getitem3_crop y _ _ _ _ ch cw Dy E1 E2).
    split; reflexivity. }
  assert (Hidx : exists lo1 lo2 hi1 hi2,
             crop_indices self (PTensor x) = Ret ((lo1, hi1), (lo2, hi2)) /\
             hi1 = lo1 + ch /\ hi2 = lo2 + cw /\
             0 <= lo1 /\ lo1 + ch <= Z.of_nat H /\
             0 <= lo2 /\ lo2 + cw <= Z.of_nat W).
  { unfold crop_indices, size_of, size. cbn [method bind].
    rewrite (has_shape_shape _ _ Hx Px).
    destruct Hcases as [-> | [-> | [-> | [-> | ->]]]];
      cbn [self crop_type crop_size Z.eqb Pos.eqb nth_error getitem bind].
    - unfold half_diff. rewrite !Qceiling_half, !Qfloor_half.
      do 4 eexists. split; [reflexivity |]. lia.
    - do 4 eexists. split; [reflexivity |]. lia.
    - do 4 eexists. split; [reflexivity |]. lia.
    - do 4 eexists. split; [reflexivity |]. lia.
    - do 4 eexists. split; [reflexivity |]. lia. }
  destruct Hidx as (lo1 & lo2 & hi1 & hi2 & Ei & E1 & E2 & B).
  destruct (Hwin lo1 lo2 hi1 hi2 Ei E1 E2) as [Htwo Hone].
  exists lo1, lo2.
  split; [lia |]. split; [lia |].
  split; [exact Htwo |]. split; [exact Hone |].
  split; apply has_shape_crop with (H := H) (W := W); auto; lia.
Qed.

(** ** Pad: nothing to add *)

Lemma pad_nd_zero (pads : list (nat * nat)) :
  forall t, Forall (fun p => p = (0, 0)%nat) pads -> pad_nd pads t = t.
Proof.
  induction pads as [| p pads IH]; intros t Hz.
  - destruct t; reflexivity.
  - inversion Hz as [| ? ? Hp Hrest]; subst.
    destruct t as [v | l]; [reflexivity |].
    cbn [pad_nd repeat app].
    rewrite (map_ext _ (fun c => c)) by (intro c; now apply IH).
    now rewrite map_id, app_nil_r.
Qed.

Lemma pad_sizes_zero (sh : list nat) :
  forall size,
    Forall2 (fun d tgt => (tgt <= inject_Z (Z.of_nat d))%Q) sh size ->
    Forall (fun p => p = (0, 0)%nat) (pad_widths (pad_sizes sh size)).
Proof.
  induction sh as [| d sh IH]; intros size Hle; inversion Hle as [| ? tgt ? size' Hd Hrest]; subst.
  - constructor.
  - rewrite pad_sizes_cons. unfold pad_widths in *. cbn [map].
    constructor; [| now apply IH].
    pose proof (pad_split_ok (d, tgt)) as (_ & _ & _ & _ & _ & Hz).
    cbn [fst snd] in Hz. specialize (Hz Hd).
    cbv zeta. rewrite Hz. reflexivity.
Qed.

Lemma Pad_call_widths (sh : list nat) (size : list Q) (x y : tensor) :
  has_shape sh x -> positive_dims sh = true ->
  length size = length sh -> dim y = length sh ->
  Pad_call size (PTensor x) PNone =
    Ret (PTensor (pad_nd (pad_widths (pad_sizes sh size)) x)) /\
  Pad_call size (PTensor x) (PTensor y) =
    Ret (PPair (PTensor (pad_nd (pad_widths (pad_sizes sh size)) x))
               (PTensor (pad_nd (pad_widths (pad_sizes sh size)) y))).
Proof.
  intros Hx Hpos Hsize Hy.
  assert (Hlen : length (pad_sizes sh size) = length sh).
  { rewrite pad_sizes_length. lia. }
  assert (Ex : np_pad x (pad_sizes sh size) =
               Ret (pad_nd (pad_widths (pad_sizes sh size)) x)).
  { unfold np_pad. rewrite pad_sizes_nonneg.
    rewrite Hlen, (has_shape_dim _ _ Hx Hpos), Nat.eqb_refl. reflexivity. }
  assert (Ey : np_pad y (pad_sizes sh size) =
               Ret (pad_nd (pad_widths (pad_sizes sh size)) y)).
  { unfold np_pad. rewrite pad_sizes_nonneg.
    rewrite Hlen, Hy, Nat.eqb_refl. reflexivity. }
  unfold Pad_call. cbn [method bind is_none].
  rewrite (has_shape_shape _ _ Hx Hpos), Ex, Ey. split; reflexivity.
Qed.

Lemma Pad_nothing_to_add (sh : list nat) (size : list Q) (x y : tensor) :
  has_shape sh x -> positive_dims sh = true -> dim y = length sh ->
  Forall2 (fun d tgt => (tgt <= inject_Z (Z.of_nat d))%Q) sh size ->
  Pad_call size (PTensor x) PNone = Ret (PTensor x) /\
  Pad_call size (PTensor x) (PTensor y) = Ret (PPair (PTensor x) (PTensor y)).
Proof.
  intros Hx Hpos Hy Hle.
  assert (Hsize : length size = length sh)
    by (symmetry; eapply Forall2_length; eauto).
  destruct (Pad_call_widths sh size x y Hx Hpos Hsize Hy) as [E1 E2].
  rewrite E1, E2.
  rewrite !pad_nd_zero by now apply pad_sizes_zero.
  split; reflexivity.
Qed.

(** X6: a tensor whose every extent is already at or above its target is
    returned unchanged by [Pad], and so is [y]. *)
Theorem Pad_at_or_above_target_is_identity
        (sh : list nat) (size : list Q) (x y : tensor) :
  has_shape sh x -> positive_dims sh = true -> dim y = length sh ->
  Forall2 (fun d tgt => (tgt <= inject_Z (Z.of_nat d))%Q) sh size ->
  Pad_call size (PTensor x) PNone = Ret (PTensor x) /\
  Pad_call size (PTensor x) (PTensor y) = Ret (PPair (PTensor x) (PTensor y)).
Proof. apply Pad_nothing_to_add. Qed.

Lemma padded_dims_reach_target (sh : list nat) :
  forall size, length size = length sh ->
    Forall2 (fun d tgt => (tgt <= inject_Z (Z.of_nat d))%Q)
            (map padded_dim (combine sh size)) size.
Proof.
  induction sh as [| d sh IH]; intros [| tgt size] Hlen; try discriminate.
  - constructor.
  - cbn [combine map]. constructor; [| apply IH; now injection Hlen].
    unfold padded_dim. cbn [fst snd].
    rewrite Z2Nat.id by lia.
    eapply Qle_trans; [apply Qle_ceiling |].
    rewrite <- Zle_Qle. lia.
Qed.

(** X7: padding is idempotent: padding the padded tensor again to the same
    target changes nothing. *)
Theorem Pad_twice_is_Pad_once (sh : list nat) (size : list Q) (x : tensor) :
  has_shape sh x -> positive_dims sh = true -> length size = length sh ->
  exists x',
    Pad_call size (PTensor x) PNone = Ret (PTensor x') /\
    Pad_call size (PTensor x') PNone = Ret (PTensor x').
Proof.
  intros Hx Hpos Hsize.
  destruct (Pad_call_widths sh size x x Hx Hpos Hsize
                            (has_shape_dim _ _ Hx Hpos)) as [E1 _].
  eexists. split; [exact E1 |].
  set (x' := pad_nd (pad_widths (pad_sizes sh size)) x).
  assert (Hx' : has_shape (map padded_dim (combine sh size)) x').
  { unfold x'. rewrite <- padded_shape_pad_sizes.
    apply pad_nd_has_shape; auto.
    unfold pad_widths. rewrite length_map, pad_sizes_length. lia. }
  assert (Hpos' : positive_dims (map padded_dim (combine sh size)) = true).
  { rewrite <- padded_shape_pad_sizes. now apply padded_shape_positive. }
  apply (Pad_nothing_to_add _ size x' x' Hx' Hpos' (has_shape_dim _ _ Hx' Hpos')).
  now apply padded_dims_reach_target.
Qed.

(** ** RangeNormalize: the values land in the configured range *)

Lemma tensor_ind_nested (P : tensor -> Prop) :
  (forall v, P (Scalar v)) -> (forall l, Forall P l -> P (Node l)) ->
  forall t, P t.
Proof.
  intros HS HN. fix IH 1. intros [v | l].
  - apply HS.
  - apply HN. induction l as [| c l IHl]; constructor; [apply IH | exact IHl].
Qed.

Lemma flatten_tmap (f : Q -> Q) (t : tensor) :
  flatten (tmap f t) = map f (flatten t).
Proof.
  induction t as [v | l IH] using tensor_ind_nested; cbn [tmap flatten].
  - reflexivity.
  - induction IH as [| c l Hc Hl IHl]; cbn [map flat_map]; [reflexivity |].
    now rewrite map_app, Hc, IHl.
Qed.

Lemma shape_tmap (f : Q -> Q) (t : tensor) : shape (tmap f t) = shape t.
Proof.
  induction t as [v | l IH] using tensor_ind_nested; cbn [tmap shape].
  - reflexivity.
  - rewrite length_map. f_equal.
    destruct IH as [| c l Hc Hl]; cbn [map]; [reflexivity | exact Hc].
Qed.

Lemma fold_qmin_spec (vs : list Q) :
  forall v, In (fold_left qmin vs v) (v :: vs) /\
            Forall (fun e => (fold_left qmin vs v <= e)%Q) (v :: vs).
Proof.
  induction vs as [| a vs IH]; intros v; cbn [fold_left].
  - split; [now left | constructor; [apply Qle_refl | constructor]].
  - destruct (IH (qmin v a)) as [Hin Hall].
    inversion Hall as [| ? ? Hm Hrest]; subst.
    unfold qmin in *. destruct (Qle_bool v a) eqn:E.
    + apply Qle_bool_iff in E. split.
      * destruct Hin as [<- | Hin]; [now left | now right; right].
      * constructor; [exact Hm |].
        constructor; [eapply Qle_trans; eauto | exact Hrest].
    + assert (Hav : (a <= v)%Q).
      { apply Qlt_le_weak, Qnot_le_lt. intro H. apply Qle_bool_iff in H. congruence. }
      split.
      * destruct Hin as [<- | Hin]; [now right; left | now right; right].
      * constructor; [eapply Qle_trans; eauto |].
        constructor; [exact Hm | exact Hrest].
Qed.

Lemma fold_qmax_spec (vs : list Q) :
  forall v, In (fold_left qmax vs v) (v :: vs) /\
            Forall (fun e => (e <= fold_left qmax vs v)%Q) (v :: vs).
Proof.
  induction vs as [| a vs IH]; intros v; cbn [fold_left].
  - split; [now left | constructor; [apply Qle_refl | constructor]].
  - destruct (IH (qmax v a)) as [Hin Hall].
    inversion Hall as [| ? ? Hm Hrest]; subst.
    unfold qmax in *. destruct (Qle_bool v a) eqn:E.
    + apply Qle_bool_iff in E. split.
      * destruct Hin as [<- | Hin]; [now right; left | now right; right].
      * constructor; [eapply Qle_trans; eauto |].
        constructor; [exact Hm | exact Hrest].
    + assert (Hav : (a <= v)%Q).
      { apply Qlt_le_weak, Qnot_le_lt. intro H. apply Qle_bool_iff in H. congruence. }
      split.
      * destruct Hin as [<- | Hin]; [now left | now right; right].
      * constructor; [exact Hm |].
        constructor; [eapply Qle_trans; eauto | exact Hrest].
Qed.



(** ** AddChannel *)

Lemma has_shape_unsqueeze_at (k : nat) :
  forall (sh : list nat) (t : tensor),
    has_shape sh t -> (k <= length sh)%nat ->
    has_shape (firstn k sh ++ 1%nat :: skipn k sh) (unsqueeze_at k t).
Proof.
  unfold has_shape.
  induction k as [| k IH]; intros sh t Ht Hk.
  - cbn [firstn skipn app unsqueeze_at has_shapeb length forallb Nat.eqb].
    now rewrite Ht.
  - destruct sh as [| n sh]; [simpl in Hk; lia |].
    destruct t as [v | l]; [discriminate Ht |].
    simpl in Ht. apply andb_prop in Ht. destruct Ht as [Hlen Hall].
    cbn [firstn skipn app unsqueeze_at has_shapeb].
    rewrite length_map, Hlen. cbn [andb].
    apply forallb_map_pointwise with (P := has_shapeb sh); auto.
    intros c Hc. apply IH; auto. simpl in Hk. lia.
Qed.

Lemma flatten_unsqueeze_at (k : nat) :
  forall t, flatten (unsqueeze_at k t) = flatten t.
Proof.
  induction k as [| k IH]; intros t.
  - cbn [unsqueeze_at flatten flat_map]. apply app_nil_r.
  - destruct t as [v | l]; [reflexivity |].
    cbn [unsqueeze_at flatten].
    induction l as [| c l IHl]; cbn [map flat_map]; [reflexivity |].
    now rewrite IH, IHl.
Qed.

(** X9: for an axis position up to the number of axes, [AddChannel] returns
    tensors with one more axis, of extent one, at that position and with
    the values unchanged and in the same order, for [x] and for [y] alike;
    at position 0 the result is the one-element stack of the input.  A
    position beyond the number of axes of [x] raises. *)
Theorem AddChannel_inserts_unit_axis
        (k : nat) (sh sh' : list nat) (x y : tensor) :
  has_shape sh x -> has_shape sh' y ->
  positive_dims sh = true -> positive_dims sh' = true ->
  ((k <= length sh)%nat -> (k <= length sh')%nat ->
   AddChannel_call k (PTensor x) (PTensor y) =
     Ret (PPair (PTensor (unsqueeze_at k x)) (PTensor (unsqueeze_at k y))) /\
   AddChannel_call k (PTensor x) PNone = Ret (PTensor (unsqueeze_at k x)) /\
   has_shape (firstn k sh ++ 1%nat :: skipn k sh) (unsqueeze_at k x) /\
   has_shape (firstn k sh' ++ 1%nat :: skipn k sh') (unsqueeze_at k y) /\
   flatten (unsqueeze_at k x) = flatten x /\
   flatten (unsqueeze_at k y) = flatten y /\
   unsqueeze_at 0 x = Node [x]) /\
  ((length sh < k)%nat ->
   forall y0 : pyval, AddChannel_call k (PTensor x) y0 = Raise RuntimeError).
Proof.
  intros Hx Hy Px Py. split.
  - intros Hk Hk'.
    assert (Dx : (dim x <? k)%nat = false).
    { apply Nat.ltb_ge. rewrite (has_shape_dim _ _ Hx Px). exact Hk. }
    assert (Dy : (dim y <? k)%nat = false).
    { apply Nat.ltb_ge. rewrite (has_shape_dim _ _ Hy Py). exact Hk'. }
    unfold AddChannel_call, unsqueeze. cbn [method bind is_none].
    rewrite Dx, Dy. cbn [bind].
    split; [reflexivity |]. split; [reflexivity |].
    split; [now apply has_shape_unsqueeze_at |].
    split; [now apply has_shape_unsqueeze_at |].
    split; [apply flatten_unsqueeze_at |].
    split; [apply flatten_unsqueeze_at | reflexivity].
  - intros Hk y0.
    assert (Dx : (dim x <? k)%nat = true).
    { apply Nat.ltb_lt. rewrite (has_shape_dim _ _ Hx Px). exact Hk. }
    unfold AddChannel_call, unsqueeze. cbn [method bind].
    now rewrite Dx.
Qed.

(** ** Slice2D *)

Lemma has_shape_select_at (a : nat) :
  forall (sh : list nat) (t : tensor) (n k : nat),
    has_shape sh t -> nth_error sh a = Some n -> (k < n)%nat ->
    has_shape (firstn a sh ++ skipn (S a) sh) (select_at a k t).
Proof.
  unfold has_shape.
  induction a as [| a IH]; intros [| m sh] [v | l] n k Ht Hn Hk;
    simpl in Hn; try discriminate; simpl in Ht; try discriminate.
  - injection Hn as ->.
    apply andb_prop in Ht. destruct Ht as [Hlen Hall].
    apply Nat.eqb_eq in Hlen.
    cbn [firstn skipn app select_at].
    rewrite forallb_forall in Hall. apply Hall, nth_In. lia.
  - apply andb_prop in Ht. destruct Ht as [Hlen Hall].
    cbn [firstn skipn app select_at has_shapeb].
    rewrite length_map, Hlen. cbn [andb].
    apply forallb_map_pointwise with (P := has_shapeb sh); auto.
    intros c Hc. eapply IH; eauto.
Qed.

(** X10: without rejection, [Slice2D] on the axis 0, 1 or 2 of a volume
    draws one index of that axis, from 0 to its extent minus one, and
    returns the slices of [x] and of [y] at that same index, each with the
    sliced axis dropped; the loop body runs once. *)
Theorem Slice2D_one_index_for_both_streams
        (fuel : nat) (a : nat) (sh : list nat) (n : nat) (x y : tensor) :
  has_shape sh x -> has_shape sh y ->
  length sh = 3%nat -> positive_dims sh = true ->
  (a < 3)%nat -> nth_error sh a = Some n ->
  let self := {| axis := Z.of_nat a; reject_zeros := false |} in
  exists cont,
    Slice2D_loop (S fuel) self (PTensor x) (PTensor y) =
      RandInt 0 (Z.of_nat n - 1) cont /\
    forall k, 0 <= k <= Z.of_nat n - 1 ->
      cont k = Ret (Some (PPair (PTensor (select_at a (Z.to_nat k) x))
                                (PTensor (select_at a (Z.to_nat k) y)))) /\
      has_shape (firstn a sh ++ skipn (S a) sh) (select_at a (Z.to_nat k) x) /\
      has_shape (firstn a sh ++ skipn (S a) sh) (select_at a (Z.to_nat k) y).
Proof.
  intros Hx Hy Hlen Hpos Ha Hn self.
  assert (Sx : shape x = sh) by now apply has_shape_shape.
  assert (Sy : shape y = sh) by now apply has_shape_shape.
  assert (Np : (0 < n)%nat).
  { unfold positive_dims in Hpos. rewrite forallb_forall in Hpos.
    apply Nat.ltb_lt, Hpos. eapply nth_error_In; eauto. }
  assert (Nth : nth a sh O = n) by (apply nth_error_nth; exact Hn).
  assert (E : (Z.of_nat n - 1 <? 0) = false) by (apply Z.ltb_ge; lia).
  assert (Hax : (Z.of_nat a =? 0) || (Z.of_nat a =? 1) || (Z.of_nat a =? 2) = true).
  { destruct a as [| [| [| a]]]; try reflexivity. lia. }
  eexists. split.
  - cbn [Slice2D_loop method bind]. unfold size_any, size, dim, randint.
    rewrite Sx, Hlen. cbn [axis self].
    replace (Z.of_nat a <? 0) with false by (symmetry; apply Z.ltb_ge; lia).
    replace (Z.of_nat a <? 0) with false by (symmetry; apply Z.ltb_ge; lia).
    replace (Z.of_nat 3 <=? Z.of_nat a) with false by (symmetry; apply Z.leb_gt; lia).
    cbn [orb]. rewrite Nat2Z.id, Hn. cbn [bind]. rewrite E. cbn [bind].
    reflexivity.
  - intros k Hk. cbv beta.
    rewrite Hax. cbn [axis self reject_zeros negb is_none subscript_select].
    unfold select3, dim. rewrite Sx, Sy, Hlen, Nth.
    cbn [Nat.ltb Nat.leb].
    assert (K0 : (k <? 0) = false) by (apply Z.ltb_ge; lia).
    assert (Kn : (Z.of_nat n <=? k) = false) by (apply Z.leb_gt; lia).
    rewrite ?K0. cbv iota. rewrite ?K0, ?Kn.
    cbn [orb bind Slice2D_return].
    split; [reflexivity |].
    split; eapply has_shape_select_at; eauto; lia.
Qed.

(** X11: an axis other than 0, 1 or 2 never yields a slice: no branch
    binds the slice, so every path ends in an exception.  For the axis
    [-1] of a volume, which [size] accepts, the index is drawn first and
    the exception is [UnboundLocalError]. *)
Theorem Slice2D_other_axis_never_returns
        (fuel : nat) (self : Slice2D) (x y : pyval) :
  axis self <> 0 -> axis self <> 1 -> axis self <> 2 ->
  leaves (fun _ => False) (Slice2D_loop (S fuel) self x y) /\
  (forall (d0 d1 d2 : nat) (t : tensor),
      has_shape [S d0; S d1; S d2] t -> axis self = -1 ->
      Slice2D_loop (S fuel) self (PTensor t) y =
        RandInt 0 (Z.of_nat (S d2) - 1) (fun _ => Raise UnboundLocalError)).
Proof.
  intros H0 H1 H2.
  assert (Hax : (axis self =? 0) || (axis self =? 1) || (axis self =? 2) = false).
  { rewrite !orb_false_iff, !Z.eqb_neq. tauto. }
  split.
  - cbn [Slice2D_loop]. rewrite Hax.
    repeat (apply leaves_bind with (P := fun _ => True);
            [apply leaves_trivial | intros ? _]).
    exact I.
  - intros d0 d1 d2 t Ht Em.
    assert (St : shape t = [S d0; S d1; S d2]) by (apply has_shape_shape; auto).
    assert (E : (Z.of_nat (S d2) - 1 <? 0) = false) by (apply Z.ltb_ge; lia).
    assert (Es : size_any t (-1) = Ret (Z.of_nat (S d2))).
    { unfold size_any, size, dim. rewrite St. reflexivity. }
    cbn [Slice2D_loop method bind]. rewrite Hax, Em, Es.
    unfold randint. cbn [bind]. rewrite E. reflexivity.
Qed.


(** ** Elements by index *)

Lemma get_tabulate (sh : list nat) :
  forall f idx, in_range idx sh -> get (tabulate sh f) idx = Some (f idx).
Proof.
  unfold in_range.
  induction sh as [| n sh IH]; intros f idx Hr;
    inversion Hr as [| i m idx' sh' Him Hrest]; subst.
  - reflexivity.
  - cbn [tabulate get].
    rewrite nth_error_map, nth_error_seq.
    apply Nat.ltb_lt in Him. rewrite Him. cbn.
    now rewrite IH.
Qed.

Lemma at_index_tabulate (sh : list nat) (f : list nat -> Q) (idx : list nat) :
  in_range idx sh -> at_index (tabulate sh f) idx = f idx.
Proof. intros Hr. unfold at_index. now rewrite get_tabulate. Qed.

Lemma has_shape_tabulate (sh : list nat) :
  forall f, has_shape sh (tabulate sh f).
Proof.
  unfold has_shape.
  induction sh as [| n sh IH]; intros f; cbn [tabulate has_shapeb]; [reflexivity |].
  rewrite length_map, length_seq, Nat.eqb_refl. cbn [andb].
  apply forallb_forall. intros c Hc. apply in_map_iff in Hc.
  destruct Hc as (i & <- & _). apply IH.
Qed.

Lemma tabulate_ext (sh : list nat) :
  forall f g, (forall idx, in_range idx sh -> f idx = g idx) ->
              tabulate sh f = tabulate sh g.
Proof.
  unfold in_range.
  induction sh as [| n sh IH]; intros f g Hfg; cbn [tabulate].
  - f_equal. apply Hfg. constructor.
  - f_equal. apply map_ext_in. intros i Hi. apply in_seq in Hi.
    apply IH. intros idx Hr. apply Hfg. constructor; [lia | exact Hr].
Qed.

Lemma map_nth_seq {A : Type} (l : list A) (d : A) :
  map (fun i => nth i l d) (seq 0 (length l)) = l.
Proof.
  induction l as [| a l IH]; [reflexivity |].
  cbn [length seq map nth]. f_equal.
  rewrite <- seq_shift, map_map. exact IH.
Qed.

(** A rectangular tensor is the table of its own elements. *)
Lemma tabulate_at_index (sh : list nat) :
  forall t, has_shape sh t -> tabulate sh (at_index t) = t.
Proof.
  unfold has_shape.
  induction sh as [| n sh IH]; intros [v | l] Ht; simpl in Ht; try discriminate.
  - reflexivity.
  - apply andb_prop in Ht. destruct Ht as [Hlen Hall].
    apply Nat.eqb_eq in Hlen. subst n.
    rewrite forallb_forall in Hall.
    cbn [tabulate]. f_equal.
    rewrite <- (map_nth_seq l (Scalar 0)) at 2.
    apply map_ext_in. intros i Hi. apply in_seq in Hi.
    rewrite <- (IH (nth i l (Scalar 0))) by (apply Hall, nth_In; lia).
    apply tabulate_ext. intros idx _.
    unfold at_index. cbn [get].
    now rewrite (nth_error_nth' l (Scalar 0)) by lia.
Qed.

Lemma in_range_length (idx sh : list nat) :
  in_range idx sh -> length idx = length sh.
Proof. apply Forall2_length. Qed.

Lemma in_range_nth (idx sh : list nat) :
  in_range idx sh <->
  length idx = length sh /\
  forall k, (k < length sh)%nat -> (nth k idx O < nth k sh O)%nat.
Proof.
  unfold in_range. split.
  - induction 1 as [| i n idx sh Hi Hr [IHl IHn]]; cbn [length].
    + split; [reflexivity |]. intros k Hk. lia.
    + split; [now f_equal |].
      intros [| k] Hk; cbn [nth]; [exact Hi | apply IHn; lia].
  - revert sh. induction idx as [| i idx IH]; intros [| n sh] [Hl Hn];
      try discriminate; constructor.
    + apply (Hn O). cbn. lia.
    + apply IH. split; [now injection Hl |].
      intros k Hk. apply (Hn (S k)). cbn. lia.
Qed.

(** ** Exchanging two positions *)

Lemma swap_index_involutive (a b i : nat) :
  swap_index a b (swap_index a b i) = i.
Proof.
  unfold swap_index.
  destruct (Nat.eqb_spec i a), (Nat.eqb_spec i b); subst;
    repeat match goal with
           | |- context [Nat.eqb ?u ?v] => destruct (Nat.eqb_spec u v)
           end; congruence.
Qed.

Lemma swap_index_lt (a b i n : nat) :
  (a < n)%nat -> (b < n)%nat -> (i < n)%nat -> (swap_index a b i < n)%nat.
Proof.
  intros. unfold swap_index.
  destruct (i =? a)%nat; [assumption |]. now destruct (i =? b)%nat.
Qed.

Lemma swap_entries_length (a b : nat) (l : list nat) :
  length (swap_entries a b l) = length l.
Proof. unfold swap_entries. now rewrite length_map, length_seq. Qed.

Lemma swap_entries_nth (a b : nat) (l : list nat) (k : nat) :
  (k < length l)%nat ->
  nth k (swap_entries a b l) O = nth (swap_index a b k) l O.
Proof.
  intros Hk. unfold swap_entries.
  rewrite (nth_indep _ O (nth (swap_index a b O) l O))
    by now rewrite length_map, length_seq.
  rewrite (map_nth (fun i => nth (swap_index a b i) l O)), seq_nth by exact Hk.
  reflexivity.
Qed.

Lemma swap_entries_involutive (a b : nat) (l : list nat) :
  (a < length l)%nat -> (b < length l)%nat ->
  swap_entries a b (swap_entries a b l) = l.
Proof.
  intros Ha Hb.
  apply nth_ext with (d := O) (d' := O).
  - now rewrite !swap_entries_length.
  - intros k Hk. rewrite !swap_entries_length in Hk.
    rewrite swap_entries_nth by now rewrite swap_entries_length.
    rewrite swap_entries_nth by now apply swap_index_lt.
    now rewrite swap_index_involutive.
Qed.

Lemma swap_entries_in_range (a b : nat) (idx sh : list nat) :
  (a < length sh)%nat -> (b < length sh)%nat ->
  in_range idx sh -> in_range (swap_entries a b idx) (swap_entries a b sh).
Proof.
  intros Ha Hb Hr. apply in_range_nth in Hr. destruct Hr as [Hl Hn].
  apply in_range_nth. rewrite !swap_entries_length. split; [exact Hl |].
  intros k Hk.
  rewrite !swap_entries_nth by lia.
  apply Hn. now apply swap_index_lt.
Qed.

Lemma swap_entries_positive (a b : nat) (sh : list nat) :
  (a < length sh)%nat -> (b < length sh)%nat ->
  positive_dims sh = true -> positive_dims (swap_entries a b sh) = true.
Proof.
  intros Ha Hb Hpos. unfold positive_dims in *.
  rewrite forallb_forall in *. intros n Hn.
  unfold swap_entries in Hn. apply in_map_iff in Hn.
  destruct Hn as (i & <- & Hi). apply in_seq in Hi.
  apply Hpos, nth_In. apply swap_index_lt; lia.
Qed.

(** Exchanging two axes twice gives the tensor back. *)
Lemma swapaxes_involutive (a b : nat) (sh : list nat) (t : tensor) :
  has_shape sh t -> positive_dims sh = true ->
  (a < length sh)%nat -> (b < length sh)%nat ->
  swapaxes a b (swapaxes a b t) = t.
Proof.
  intros Ht Hpos Ha Hb.
  assert (St : shape t = sh) by now apply has_shape_shape.
  assert (S1 : shape (swapaxes a b t) = swap_entries a b sh).
  { unfold swapaxes. rewrite St. apply has_shape_shape.
    - apply has_shape_tabulate.
    - now apply swap_entries_positive. }
  unfold swapaxes at 1. rewrite S1, swap_entries_involutive by assumption.
  transitivity (tabulate sh (at_index t)); [| now apply tabulate_at_index].
  apply tabulate_ext. intros idx Hr.
  unfold swapaxes. rewrite St.
  rewrite at_index_tabulate by now apply swap_entries_in_range.
  rewrite swap_entries_involutive; [reflexivity | |];
    rewrite (in_range_length _ _ Hr); assumption.
Qed.

(** ** Moving the channel axis *)

Lemma index_of_seq_app (m : nat) :
  forall s j r, (j < m)%nat -> index_of (s + j) (seq s m ++ r) = j.
Proof.
  induction m as [| m IH]; intros s j r Hj; [lia |].
  cbn [seq app index_of].
  destruct j as [| j].
  - now rewrite Nat.add_0_r, Nat.eqb_refl.
  - replace (s + S j =? s)%nat with false by (symmetry; apply Nat.eqb_neq; lia).
    f_equal. replace (s + S j)%nat with (S s + j)%nat by lia.
    apply IH. lia.
Qed.

Lemma index_of_zero_after_seq (m : nat) :
  forall s, (0 < s)%nat -> index_of 0 (seq s m ++ [O]) = m.
Proof.
  induction m as [| m IH]; intros s Hs; cbn [seq app index_of].
  - reflexivity.
  - destruct s as [| s]; [lia |]. cbn [Nat.eqb]. f_equal. apply IH. lia.
Qed.

Lemma rotate_right_left (l : list nat) : rotate_right (rotate_left l) = l.
Proof.
  destruct l as [| a l]; [reflexivity |].
  unfold rotate_left, rotate_right.
  destruct (l ++ [a]) as [| b l'] eqn:E; [now destruct l |].
  rewrite <- E. now rewrite last_last, removelast_last.
Qed.

Lemma rotate_left_right (l : list nat) : rotate_left (rotate_right l) = l.
Proof.
  destruct l as [| a l]; [reflexivity |].
  unfold rotate_right, rotate_left.
  symmetry. apply app_removelast_last. discriminate.
Qed.

(** The source index of [ChannelsLast]: the last entry comes first. *)
Lemma source_index_last (r : list nat) (i : nat) :
  map (fun a => nth (index_of a (plist_last (S (length r)))) (r ++ [i]) O)
      (seq 0 (S (length r))) = i :: r.
Proof.
  unfold plist_last. replace (S (length r) - 1)%nat with (length r) by lia.
  cbn [seq map]. f_equal.
  - rewrite index_of_zero_after_seq by lia. now rewrite nth_middle.
  - rewrite <- seq_shift, map_map.
    etransitivity; [| apply (map_nth_seq r O)].
    apply map_ext_in. intros j Hj. apply in_seq in Hj.
    rewrite seq_shift.
    pose proof (index_of_seq_app (length r) 1 j [O]) as E.
    cbn [Nat.add] in E. rewrite E by lia.
    apply app_nth1. lia.
Qed.

(** The source index of [ChannelsFirst]: the first entry goes last. *)
Lemma source_index_first (r : list nat) (i : nat) :
  map (fun a => nth (index_of a (plist_first (S (length r)))) (i :: r) O)
      (seq 0 (S (length r))) = r ++ [i].
Proof.
  unfold plist_first. replace (S (length r) - 1)%nat with (length r) by lia.
  rewrite seq_S, map_app. cbn [map Nat.add index_of]. rewrite Nat.eqb_refl.
  cbn [nth]. f_equal.
  etransitivity; [| apply (map_nth_seq r O)].
  apply map_ext_in. intros j Hj. apply in_seq in Hj.
  replace (j =? length r)%nat with false by (symmetry; apply Nat.eqb_neq; lia).
  pose proof (index_of_seq_app (length r) 0 j []) as E.
  cbn [Nat.add] in E. rewrite app_nil_r in E. now rewrite E by lia.
Qed.

Lemma shape_after_last (c : nat) (rest : list nat) :
  map (fun a => nth a (c :: rest) O) (plist_last (S (length rest))) = rest ++ [c].
Proof.
  unfold plist_last. replace (S (length rest) - 1)%nat with (length rest) by lia.
  rewrite map_app. cbn [map nth]. f_equal.
  rewrite <- seq_shift, map_map. cbn [nth]. apply map_nth_seq.
Qed.

Lemma shape_after_first (c : nat) (rest : list nat) :
  map (fun a => nth a (rest ++ [c]) O) (plist_first (S (length rest))) = c :: rest.
Proof.
  unfold plist_first. replace (S (length rest) - 1)%nat with (length rest) by lia.
  cbn [map]. rewrite nth_middle. f_equal.
  etransitivity; [| apply (map_nth_seq rest O)].
  apply map_ext_in. intros j Hj. apply in_seq in Hj. apply app_nth1. lia.
Qed.

Lemma in_range_snoc (idx sh : list nat) (c : nat) :
  in_range idx (sh ++ [c]) ->
  exists r i, idx = r ++ [i] /\ in_range r sh /\ (i < c)%nat.
Proof.
  unfold in_range. intros H.
  apply Forall2_app_inv_r in H. destruct H as (r & l2 & Hr & Hl2 & ->).
  inversion Hl2 as [| i ? l2' ? Hi Hnil]; subst. inversion Hnil; subst.
  exists r, i. auto.
Qed.

Lemma in_range_snoc_intro (r sh : list nat) (i c : nat) :
  in_range r sh -> (i < c)%nat -> in_range (r ++ [i]) (sh ++ [c]).
Proof.
  unfold in_range. intros Hr Hi. apply Forall2_app; [exact Hr |].
  constructor; [exact Hi | constructor].
Qed.

Lemma positive_dims_snoc (sh : list nat) (c : nat) :
  positive_dims (c :: sh) = true -> positive_dims (sh ++ [c]) = true.
Proof.
  unfold positive_dims. cbn [forallb]. rewrite forallb_app. cbn [forallb].
  intros H. apply andb_prop in H. destruct H as [-> ->]. reflexivity.
Qed.

(** Moving the first axis last, element by element. *)
Lemma permute_axes_last (c : nat) (rest : list nat) (t : tensor) :
  has_shape (c :: rest) t -> positive_dims (c :: rest) = true ->
  permute_axes (plist_last (S (length rest))) t =
  tabulate (rest ++ [c]) (fun idx => at_index t (rotate_right idx)).
Proof.
  intros Ht Hpos. unfold permute_axes.
  rewrite (has_shape_shape _ _ Ht Hpos), shape_after_last.
  apply tabulate_ext. intros idx Hr.
  destruct (in_range_snoc _ _ _ Hr) as (r & i & -> & Hrr & Hi).
  cbn [length]. rewrite <- (in_range_length _ _ Hrr), source_index_last.
  unfold rotate_right.
  destruct (r ++ [i]) as [| b l'] eqn:E; [now destruct r |].
  rewrite <- E. now rewrite last_last, removelast_last.
Qed.

(** Moving the last axis first, element by element. *)
Lemma permute_axes_first (c : nat) (rest : list nat) (t : tensor) :
  has_shape (rest ++ [c]) t -> positive_dims (rest ++ [c]) = true ->
  permute_axes (plist_first (S (length rest))) t =
  tabulate (c :: rest) (fun idx => at_index t (rotate_left idx)).
Proof.
  intros Ht Hpos. unfold permute_axes.
  rewrite (has_shape_shape _ _ Ht Hpos), shape_after_first.
  rewrite length_app. cbn [length]. rewrite Nat.add_1_r.
  apply tabulate_ext. intros idx Hr.
  inversion Hr as [| i n r sh' Hi Hrr]; subst.
  rewrite <- (Forall2_length Hrr), source_index_first. reflexivity.
Qed.

Lemma is_permutation_last (n : nat) : is_permutation (plist_last (S n)) (S n) = true.
Proof.
  unfold is_permutation, plist_last.
  rewrite length_app, length_seq. cbn [length].
  replace (S n - 1 + 1 =? S n)%nat with true by (symmetry; apply Nat.eqb_eq; lia).
  cbn [andb]. apply forallb_forall. intros a Ha. apply in_seq in Ha.
  apply existsb_exists. exists a. split; [| apply Nat.eqb_refl].
  apply in_or_app. destruct a as [| a]; [right; now left | left].
  apply in_seq. lia.
Qed.

Lemma is_permutation_first (n : nat) : is_permutation (plist_first (S n)) (S n) = true.
Proof.
  unfold is_permutation, plist_first.
  cbn [length]. rewrite length_seq.
  replace (S (S n - 1) =? S n)%nat with true by (symmetry; apply Nat.eqb_eq; lia).
  cbn [andb]. apply forallb_forall. intros a Ha. apply in_seq in Ha.
  apply existsb_exists. exists a. split; [| apply Nat.eqb_refl].
  destruct (Nat.eq_dec a n) as [-> | Hne]; [left; lia | right].
  apply in_seq. lia.
Qed.

(** Channels last, then channels first, gives the tensor back. *)
Lemma permute_axes_first_last (c : nat) (rest : list nat) (t : tensor) :
  has_shape (c :: rest) t -> positive_dims (c :: rest) = true ->
  permute_axes (plist_first (S (length rest)))
               (permute_axes (plist_last (S (length rest))) t) = t.
Proof.
  intros Ht Hpos.
  rewrite (permute_axes_last c rest t Ht Hpos).
  rewrite (permute_axes_first c rest);
    [| apply has_shape_tabulate | now apply positive_dims_snoc].
  transitivity (tabulate (c :: rest) (at_index t)); [| now apply tabulate_at_index].
  apply tabulate_ext. intros idx Hr.
  inversion Hr as [| i n r sh' Hi Hrr]; subst.
  rewrite at_index_tabulate by (cbn [rotate_left]; now apply in_range_snoc_intro).
  now rewrite rotate_right_left.
Qed.

(** Channels first, then channels last, gives the tensor back. *)
Lemma permute_axes_last_first (c : nat) (rest : list nat) (t : tensor) :
  has_shape (rest ++ [c]) t -> positive_dims (rest ++ [c]) = true ->
  permute_axes (plist_last (S (length rest)))
               (permute_axes (plist_first (S (length rest))) t) = t.
Proof.
  intros Ht Hpos.
  assert (Hpos' : positive_dims (c :: rest) = true).
  { unfold positive_dims in *. rewrite forallb_app in Hpos. cbn [forallb] in *.
    apply andb_prop in Hpos. destruct Hpos as [-> H2].
    apply andb_prop in H2. destruct H2 as [-> _]. reflexivity. }
  rewrite (permute_axes_first c rest t Ht Hpos).
  rewrite (permute_axes_last c rest); [| apply has_shape_tabulate | exact Hpos'].
  transitivity (tabulate (rest ++ [c]) (at_index t)); [| now apply tabulate_at_index].
  apply tabulate_ext. intros idx Hr.
  destruct (in_range_snoc _ _ _ Hr) as (r & i & -> & Hrr & Hi).
  assert (E : rotate_right (r ++ [i]) = i :: r).
  { unfold rotate_right. destruct (r ++ [i]) as [| b l'] eqn:E; [now destruct r |].
    rewrite <- E. now rewrite last_last, removelast_last. }
  rewrite E, at_index_tabulate by (constructor; assumption).
  reflexivity.
Qed.

(** ** Transpose *)

(** X13: [Transpose] exchanges two axes of [x] and the same two of [y]:
    the extents at the two positions are exchanged, the element at an
    index is the element of the input at the index with the two positions
    exchanged, and transposing twice gives the input back.  An axis beyond
    the last raises. *)
Theorem Transpose_exchanges_two_axes
        (a b : nat) (sh sh' : list nat) (x y : tensor) :
  has_shape sh x -> has_shape sh' y ->
  positive_dims sh = true -> positive_dims sh' = true ->
  ((a < length sh)%nat -> (b < length sh)%nat ->
   (a < length sh')%nat -> (b < length sh')%nat ->
   Transpose_call a b (PTensor x) (PTensor y) =
     Ret (PPair (PTensor (swapaxes a b x)) (PTensor (swapaxes a b y))) /\
   Transpose_call a b (PTensor x) PNone = Ret (PTensor (swapaxes a b x)) /\
   has_shape (swap_entries a b sh) (swapaxes a b x) /\
   has_shape (swap_entries a b sh') (swapaxes a b y) /\
   (forall idx, in_range idx (swap_entries a b sh) ->
                at_index (swapaxes a b x) idx = at_index x (swap_entries a b idx)) /\
   Transpose_call a b (PTensor (swapaxes a b x)) (PTensor (swapaxes a b y)) =
     Ret (PPair (PTensor x) (PTensor y))) /\
  ((length sh <= a)%nat \/ (length sh <= b)%nat ->
   forall y0 : pyval, Transpose_call a b (PTensor x) y0 = Raise RuntimeError).
Proof.
  intros Hx Hy Px Py.
  assert (Sx : shape x = sh) by now apply has_shape_shape.
  assert (Sy : shape y = sh') by now apply has_shape_shape.
  split.
  - intros Ha Hb Ha' Hb'.
    assert (Tx : forall t s, has_shape s t -> positive_dims s = true ->
                             (a < length s)%nat -> (b < length s)%nat ->
                             th_transpose t a b = Ret (swapaxes a b t)).
    { intros t s Ht Ps Has Hbs. unfold th_transpose.
      rewrite (has_shape_dim _ _ Ht Ps).
      apply Nat.ltb_lt in Has, Hbs. now rewrite Has, Hbs. }
    assert (Hsx : has_shape (swap_entries a b sh) (swapaxes a b x)).
    { unfold swapaxes. rewrite Sx. apply has_shape_tabulate. }
    assert (Hsy : has_shape (swap_entries a b sh') (swapaxes a b y)).
    { unfold swapaxes. rewrite Sy. apply has_shape_tabulate. }
    unfold Transpose_call, transpose_of.
    rewrite (Tx x sh), (Tx y sh') by assumption.
    rewrite (Tx (swapaxes a b x) (swap_entries a b sh)), (Tx (swapaxes a b y) (swap_entries a b sh'));
      try assumption; try (apply swap_entries_positive; assumption);
      try (rewrite swap_entries_length; assumption).
    cbn [bind is_none].
    rewrite (swapaxes_involutive a b sh x), (swapaxes_involutive a b sh' y) by assumption.
    repeat (split; [reflexivity || assumption |]).
    split; [| reflexivity].
    intros idx Hr. unfold swapaxes. rewrite Sx.
    now rewrite at_index_tabulate by assumption.
  - intros Hab y0. unfold Transpose_call, transpose_of, th_transpose.
    rewrite (has_shape_dim _ _ Hx Px).
    replace ((a <? length sh)%nat && (b <? length sh)%nat) with false; [reflexivity |].
    symmetry. apply andb_false_iff.
    destruct Hab; [left | right]; apply Nat.ltb_ge; assumption.
Qed.

(** ** ChannelsLast and ChannelsFirst *)

Lemma permute_last (c : nat) (rest : list nat) (t : tensor) :
  has_shape (c :: rest) t -> positive_dims (c :: rest) = true ->
  permute t (plist_last (S (length rest))) =
  Ret (permute_axes (plist_last (S (length rest))) t).
Proof.
  intros Ht Hpos. unfold permute.
  rewrite (has_shape_dim _ _ Ht Hpos). cbn [length].
  now rewrite is_permutation_last.
Qed.

Lemma permute_first (c : nat) (rest : list nat) (t : tensor) :
  has_shape (rest ++ [c]) t -> positive_dims (rest ++ [c]) = true ->
  permute t (plist_first (S (length rest))) =
  Ret (permute_axes (plist_first (S (length rest))) t).
Proof.
  intros Ht Hpos. unfold permute.
  rewrite (has_shape_dim _ _ Ht Hpos), length_app. cbn [length].
  rewrite Nat.add_1_r. now rewrite is_permutation_first.
Qed.

Lemma has_shape_permute_last (c : nat) (rest : list nat) (t : tensor) :
  has_shape (c :: rest) t -> positive_dims (c :: rest) = true ->
  has_shape (rest ++ [c]) (permute_axes (plist_last (S (length rest))) t).
Proof.
  intros Ht Hpos. rewrite (permute_axes_last c rest t Ht Hpos).
  apply has_shape_tabulate.
Qed.

Lemma has_shape_permute_first (c : nat) (rest : list nat) (t : tensor) :
  has_shape (rest ++ [c]) t -> positive_dims (rest ++ [c]) = true ->
  has_shape (c :: rest) (permute_axes (plist_first (S (length rest))) t).
Proof.
  intros Ht Hpos. rewrite (permute_axes_first c rest t Ht Hpos).
  apply has_shape_tabulate.
Qed.

(** X14: without the safety check, [ChannelsLast] moves the first axis of
    [x] and of [y] to the last position: shape [(c, rest...)] becomes
    [(rest..., c)] and element [(i, r...)] becomes element [(r..., i)];
    [ChannelsFirst] applied to the result gives [x] and [y] back. *)
Theorem ChannelsLast_then_ChannelsFirst
        (c c' : nat) (rest rest' : list nat) (x y : tensor) :
  has_shape (c :: rest) x -> has_shape (c' :: rest') y ->
  positive_dims (c :: rest) = true -> positive_dims (c' :: rest') = true ->
  length rest' = length rest ->
  exists x' y' : tensor,
    ChannelsLast_call false (PTensor x) (PTensor y) =
      Ret (PPair (PTensor x') (PTensor y')) /\
    ChannelsLast_call false (PTensor x) PNone = Ret (PTensor x') /\
    has_shape (rest ++ [c]) x' /\ has_shape (rest' ++ [c']) y' /\
    (forall r i, in_range r rest -> (i < c)%nat ->
                 at_index x' (r ++ [i]) = at_index x (i :: r)) /\
    ChannelsFirst_call false (PTensor x') (PTensor y') =
      Ret (PPair (PTensor x) (PTensor y)) /\
    ChannelsFirst_call false (PTensor x') PNone = Ret (PTensor x).
Proof.
  intros Hx Hy Px Py Hlen.
  assert (Dx : dim x = S (length rest)) by (rewrite (has_shape_dim _ _ Hx Px); reflexivity).
  pose proof (has_shape_permute_last c rest x Hx Px) as Hx'.
  pose proof (has_shape_permute_last c' rest' y Hy Py) as Hy'.
  pose proof (positive_dims_snoc _ _ Px) as Px'.
  pose proof (positive_dims_snoc _ _ Py) as Py'.
  assert (Dx' : dim (permute_axes (plist_last (S (length rest))) x) = S (length rest)).
  { rewrite (has_shape_dim _ _ Hx' Px'), length_app. cbn [length]. lia. }
  exists (permute_axes (plist_last (S (length rest))) x),
         (permute_axes (plist_last (S (length rest))) y).
  split.
  { unfold ChannelsLast_call. cbn [method bind is_none]. rewrite Dx.
    rewrite (permute_last c rest x Hx Px). cbn [bind].
    rewrite <- Hlen, (permute_last c' rest' y Hy Py). reflexivity. }
  split.
  { unfold ChannelsLast_call. cbn [method bind is_none]. rewrite Dx.
    now rewrite (permute_last c rest x Hx Px). }
  split; [exact Hx' |].
  split; [rewrite <- Hlen; exact Hy' |].
  split.
  { intros r i Hr Hi. rewrite (permute_axes_last c rest x Hx Px).
    rewrite at_index_tabulate by now apply in_range_snoc_intro.
    unfold rotate_right. destruct (r ++ [i]) as [| b l'] eqn:E; [now destruct r |].
    rewrite <- E. now rewrite last_last, removelast_last. }
  split.
  { unfold ChannelsFirst_call. cbn [method bind is_none]. rewrite Dx'.
    rewrite (permute_first c rest _ Hx' Px'). cbn [bind].
    rewrite <- Hlen.
    rewrite (permute_first c' rest' _ Hy' Py'). cbn [bind].
    rewrite (permute_axes_first_last c' rest' y Hy Py).
    rewrite Hlen, (permute_axes_first_last c rest x Hx Px). reflexivity. }
  unfold ChannelsFirst_call. cbn [method bind is_none]. rewrite Dx'.
  rewrite (permute_first c rest _ Hx' Px'). cbn [bind].
  now rewrite (permute_axes_first_last c rest x Hx Px).
Qed.

(** X15: the other way round: [ChannelsFirst] moves the last axis first,
    shape [(rest..., c)] becomes [(c, rest...)], and [ChannelsLast] applied
    to the result gives the input back. *)
Theorem ChannelsFirst_then_ChannelsLast (c : nat) (rest : list nat) (x : tensor) :
  has_shape (rest ++ [c]) x -> positive_dims (rest ++ [c]) = true ->
  exists x' : tensor,
    ChannelsFirst_call false (PTensor x) PNone = Ret (PTensor x') /\
    has_shape (c :: rest) x' /\
    (forall r i, in_range r rest -> (i < c)%nat ->
                 at_index x' (i :: r) = at_index x (r ++ [i])) /\
    ChannelsLast_call false (PTensor x') PNone = Ret (PTensor x).
Proof.
  intros Hx Px.
  assert (Dx : dim x = S (length rest)).
  { rewrite (has_shape_dim _ _ Hx Px), length_app. cbn [length]. lia. }
  pose proof (has_shape_permute_first c rest x Hx Px) as Hx'.
  assert (Px' : positive_dims (c :: rest) = true).
  { unfold positive_dims in *. rewrite forallb_app in Px. cbn [forallb] in *.
    apply andb_prop in Px. destruct Px as [-> H2].
    apply andb_prop in H2. destruct H2 as [-> _]. reflexivity. }
  assert (Dx' : dim (permute_axes (plist_first (S (length rest))) x) = S (length rest)).
  { rewrite (has_shape_dim _ _ Hx' Px'). reflexivity. }
  exists (permute_axes (plist_first (S (length rest))) x).
  split.
  { unfold ChannelsFirst_call. cbn [method bind is_none]. rewrite Dx.
    now rewrite (permute_first c rest x Hx Px). }
  split; [exact Hx' |].
  split.
  { intros r i Hr Hi. rewrite (permute_axes_first c rest x Hx Px).
    rewrite at_index_tabulate by (constructor; assumption). reflexivity. }
  unfold ChannelsLast_call. cbn [method bind is_none]. rewrite Dx'.
  rewrite (permute_last c rest _ Hx' Px'). cbn [bind].
  now rewrite (permute_axes_last_first c rest x Hx Px).
Qed.

Lemma size_any_first_last (C H W : nat) (t : tensor) :
  has_shape [C; H; W] t -> positive_dims [C; H; W] = true ->
  size_any t 0 = Ret (Z.of_nat C) /\ size_any t (-1) = Ret (Z.of_nat W).
Proof.
  intros Ht Hpos. unfold size_any, size, dim.
  rewrite (has_shape_shape _ _ Ht Hpos). split; reflexivity.
Qed.

(** X16: the safety check of [ChannelsLast] compares the last extent with
    the first.  An image of shape [(C, H, W)] with [C <= W] is converted to
    [(H, W, C)]; if moreover [C < H], converting the result again leaves it
    as it is.  An image with [W < C] is judged to be channels-last already
    and returned unchanged. *)
Theorem ChannelsLast_safe_check (C H W : nat) (x : tensor) :
  has_shape [C; H; W] x -> positive_dims [C; H; W] = true ->
  ((C <= W)%nat ->
   exists x' : tensor,
     ChannelsLast_call true (PTensor x) PNone = Ret (PTensor x') /\
     ChannelsLast_call true (PTensor x) PNone = ChannelsLast_call false (PTensor x) PNone /\
     has_shape [H; W; C] x' /\
     ((C < H)%nat -> ChannelsLast_call true (PTensor x') PNone = Ret (PTensor x'))) /\
  ((W < C)%nat ->
   forall y : tensor,
     ChannelsLast_call true (PTensor x) PNone = Ret (PTensor x) /\
     ChannelsLast_call true (PTensor x) (PTensor y) = Ret (PPair (PTensor x) (PTensor y))).
Proof.
  intros Hx Px.
  destruct (size_any_first_last C H W x Hx Px) as [E0 E1].
  split.
  - intros HCW.
    assert (Dx : dim x = 3%nat) by (rewrite (has_shape_dim _ _ Hx Px); reflexivity).
    pose proof (has_shape_permute_last C [H; W] x Hx Px) as Hx'.
    pose proof (positive_dims_snoc _ _ Px) as Px'.
    pose proof (permute_last C [H; W] x Hx Px) as Ep.
    cbn [app length] in Hx', Px', Ep.
    destruct (size_any_first_last H W C _ Hx' Px') as [E0' E1'].
    assert (Hno : (Z.of_nat W <? Z.of_nat C) = false) by (apply Z.ltb_ge; lia).
    assert (Ecall : ChannelsLast_call false (PTensor x) PNone =
                    Ret (PTensor (permute_axes (plist_last 3) x))).
    { unfold ChannelsLast_call. cbn [method bind is_none]. rewrite Dx.
      now rewrite Ep. }
    exists (permute_axes (plist_last 3) x).
    assert (Esafe : ChannelsLast_call true (PTensor x) PNone =
                    Ret (PTensor (permute_axes (plist_last 3) x))).
    { unfold ChannelsLast_call. cbn [method bind is_none]. rewrite Dx, E1, E0.
      cbn [bind]. rewrite Hno.
      now rewrite Ep. }
    split; [exact Esafe |].
    split; [now rewrite Esafe, Ecall |].
    split; [exact Hx' |].
    intros HCH.
    assert (Hyes : (Z.of_nat C <? Z.of_nat H) = true) by (apply Z.ltb_lt; lia).
    unfold ChannelsLast_call. cbn [method bind is_none].
    rewrite E1', E0'. cbn [bind]. now rewrite Hyes.
  - intros HWC y.
    assert (Hyes : (Z.of_nat W <? Z.of_nat C) = true) by (apply Z.ltb_lt; lia).
    unfold ChannelsLast_call. cbn [method bind is_none].
    rewrite E1, E0. cbn [bind]. rewrite Hyes. split; reflexivity.
Qed.

(** ** Reversing an axis *)

Lemma has_shape_reverse_axis (a : nat) :
  forall sh t, has_shape sh t -> has_shape sh (reverse_axis a t).
Proof.
  unfold has_shape.
  induction a as [| a IH]; intros [| n sh] [v | l] Ht; simpl in Ht;
    try discriminate; try reflexivity.
  - apply andb_prop in Ht. destruct Ht as [Hlen Hall].
    cbn [reverse_axis has_shapeb]. rewrite length_rev, Hlen. cbn [andb].
    rewrite forallb_forall in *. intros c Hc. apply Hall. now apply in_rev.
  - apply andb_prop in Ht. destruct Ht as [Hlen Hall].
    cbn [reverse_axis has_shapeb]. rewrite length_map, Hlen. cbn [andb].
    apply forallb_map_pointwise with (P := has_shapeb sh); auto.
Qed.

Lemma reverse_axis_involutive (a : nat) :
  forall t, reverse_axis a (reverse_axis a t) = t.
Proof.
  induction a as [| a IH]; intros [v | l]; cbn [reverse_axis]; try reflexivity.
  - now rewrite rev_involutive.
  - rewrite map_map. f_equal.
    rewrite (map_ext _ (fun c => c)) by (intro c; apply IH).
    apply map_id.
Qed.

Lemma mirror_index_in_range (a : nat) :
  forall sh idx, in_range idx sh -> in_range (mirror_index a sh idx) sh.
Proof.
  unfold in_range.
  induction a as [| a IH]; intros sh idx Hr;
    inversion Hr as [| i n r sh' Hi Hrest]; subst; cbn [mirror_index];
    try constructor; auto; lia.
Qed.

(** The element of the reversed tensor at an index is the element of the
    tensor at the mirrored index. *)
Lemma at_index_reverse_axis (a : nat) :
  forall sh t idx,
    has_shape sh t -> in_range idx sh ->
    at_index (reverse_axis a t) idx = at_index t (mirror_index a sh idx).
Proof.
  unfold has_shape, in_range, at_index.
  induction a as [| a IH]; intros sh t idx Ht Hr;
    inversion Hr as [| i n r sh' Hi Hrest]; subst;
    destruct t as [v | l]; simpl in Ht; try discriminate; try reflexivity.
  - apply andb_prop in Ht. destruct Ht as [Hlen Hall].
    apply Nat.eqb_eq in Hlen. subst n.
    cbn [reverse_axis mirror_index get].
    rewrite (nth_error_nth' (rev l) (Scalar 0)) by (rewrite length_rev; lia).
    rewrite (nth_error_nth' l (Scalar 0)) by lia.
    rewrite rev_nth by lia.
    now replace (length l - S i)%nat with (length l - 1 - i)%nat by lia.
  - apply andb_prop in Ht. destruct Ht as [Hlen Hall].
    apply Nat.eqb_eq in Hlen. subst n.
    cbn [reverse_axis mirror_index get].
    rewrite nth_error_map.
    rewrite (nth_error_nth' l (Scalar 0)) by lia. cbn [option_map].
    apply IH; auto.
    rewrite forallb_forall in Hall. apply Hall, nth_In. lia.
Qed.

Lemma mirror_index_nth (a : nat) :
  forall sh idx k,
    in_range idx sh -> (a < length sh)%nat ->
    nth k (mirror_index a sh idx) O =
    if (k =? a)%nat then (nth a sh O - 1 - nth a idx O)%nat else nth k idx O.
Proof.
  unfold in_range.
  induction a as [| a IH]; intros sh idx k Hr Ha;
    inversion Hr as [| i n r sh' Hi Hrest]; subst; cbn [length] in Ha; try lia;
    cbn [mirror_index].
  - destruct k as [| k]; reflexivity.
  - destruct k as [| k]; [reflexivity |]. cbn [nth Nat.eqb].
    apply IH; auto. lia.
Qed.

Lemma mirror_index_length (a : nat) :
  forall sh idx, length (mirror_index a sh idx) = length idx.
Proof.
  induction a as [| a IH]; intros [| n sh] [| i r]; cbn [mirror_index length];
    auto.
Qed.

Lemma swap_index_comm (a b i : nat) : swap_index a b i = swap_index b a i.
Proof.
  unfold swap_index.
  destruct (Nat.eqb_spec i a), (Nat.eqb_spec i b); congruence.
Qed.

Lemma swap_entries_comm (a b : nat) (l : list nat) :
  swap_entries a b l = swap_entries b a l.
Proof.
  unfold swap_entries. apply map_ext. intro i. now rewrite swap_index_comm.
Qed.

Lemma rev_map_seq {A : Type} (g : nat -> A) (n : nat) :
  rev (map g (seq 0 n)) = map (fun i => g (n - 1 - i)%nat) (seq 0 n).
Proof.
  induction n as [| n IH]; [reflexivity |].
  rewrite seq_S at 1. rewrite map_app, rev_app_distr. cbn [map rev app Nat.add].
  cbn [seq map]. f_equal; [f_equal; lia |].
  rewrite IH, <- seq_shift, map_map.
  apply map_ext_in. intros i Hi. apply in_seq in Hi. f_equal. lia.
Qed.

(** Reversing the first axis of a table mirrors the first entry of the
    index. *)
Lemma reverse0_tabulate (n : nat) (sh : list nat) (f : list nat -> Q) :
  reverse0 (tabulate (n :: sh) f) =
  tabulate (n :: sh) (fun idx => f (mirror_index 0 (n :: sh) idx)).
Proof.
  cbn [tabulate reverse0]. f_equal. rewrite rev_map_seq. reflexivity.
Qed.

(** Swap the axis to the front, reverse the front axis, swap back: the
    axis is reversed in place. *)
Lemma swap_reverse_swap (a : nat) (sh : list nat) (t : tensor) :
  has_shape sh t -> positive_dims sh = true -> (a < length sh)%nat ->
  swapaxes 0 a (reverse0 (swapaxes a 0 t)) = reverse_axis a t.
Proof.
  intros Ht Hpos Ha.
  assert (St : shape t = sh) by now apply has_shape_shape.
  assert (H0 : (0 < length sh)%nat) by lia.
  destruct (swap_entries a 0 sh) as [| n sh1] eqn:Esw.
  { apply (f_equal (@length nat)) in Esw. rewrite swap_entries_length in Esw.
    cbn in Esw. lia. }
  assert (En : n = nth a sh O).
  { pose proof (swap_entries_nth a 0 sh 0 H0) as E. rewrite Esw in E.
    cbn [nth] in E. rewrite E. unfold swap_index.
    destruct (Nat.eqb_spec 0 a); [now subst | reflexivity]. }
  assert (P1 : positive_dims (n :: sh1) = true).
  { rewrite <- Esw. now apply swap_entries_positive. }
  assert (L1 : length (n :: sh1) = length sh).
  { rewrite <- Esw. apply swap_entries_length. }
  unfold swapaxes at 2. rewrite St, Esw, reverse0_tabulate.
  unfold swapaxes.
  rewrite (has_shape_shape (n :: sh1)); [| apply has_shape_tabulate | exact P1].
  rewrite <- Esw, (swap_entries_comm 0 a), swap_entries_involutive by lia.
  transitivity (tabulate sh (at_index (reverse_axis a t)));
    [| apply tabulate_at_index; now apply has_shape_reverse_axis].
  apply tabulate_ext. intros idx Hr.
  assert (Li : length idx = length sh) by now apply in_range_length.
  assert (Hr1 : in_range (swap_entries a 0 idx) (swap_entries a 0 sh)).
  { now apply swap_entries_in_range. }
  rewrite (swap_entries_comm 0 a idx).
  rewrite at_index_tabulate by exact Hr1.
  rewrite (at_index_reverse_axis a sh t idx Ht Hr).
  f_equal.
  apply nth_ext with (d := O) (d' := O).
  { now rewrite swap_entries_length, !mirror_index_length, swap_entries_length. }
  intros k Hk.
  rewrite swap_entries_length, mirror_index_length, swap_entries_length in Hk.
  rewrite swap_entries_nth
    by now rewrite mirror_index_length, swap_entries_length.
  rewrite (mirror_index_nth 0 (swap_entries a 0 sh))
    by (auto; rewrite swap_entries_length; lia).
  rewrite (mirror_index_nth a sh) by auto.
  rewrite !swap_entries_nth by (try apply swap_index_lt; lia).
  unfold swap_index.
  repeat match goal with
         | |- context [(?u =? ?v)%nat] => destruct (Nat.eqb_spec u v); subst
         | H : context [(?u =? ?v)%nat] |- _ => destruct (Nat.eqb_spec u v); subst
         end; try reflexivity; try congruence; try lia.
Qed.

(** ** RandomFlip *)

Lemma flip_axis_is_reverse_axis (a : nat) (sh : list nat) (t : tensor) :
  has_shape sh t -> positive_dims sh = true -> (a < length sh)%nat ->
  flip_axis a t = Ret (reverse_axis a t).
Proof.
  intros Ht Hpos Ha.
  assert (H0 : (0 < length sh)%nat) by lia.
  assert (E1 : np_swapaxes t a 0 = Ret (swapaxes a 0 t)).
  { unfold np_swapaxes. rewrite (has_shape_dim _ _ Ht Hpos).
    apply Nat.ltb_lt in Ha, H0. now rewrite Ha, H0. }
  assert (H1 : has_shape (swap_entries a 0 sh) (reverse0 (swapaxes a 0 t))).
  { replace (reverse0 (swapaxes a 0 t)) with (reverse_axis 0 (swapaxes a 0 t))
      by (now destruct (swapaxes a 0 t)).
    apply has_shape_reverse_axis. unfold swapaxes.
    rewrite (has_shape_shape _ _ Ht Hpos). apply has_shape_tabulate. }
  assert (E2 : np_swapaxes (reverse0 (swapaxes a 0 t)) 0 a =
               Ret (swapaxes 0 a (reverse0 (swapaxes a 0 t)))).
  { unfold np_swapaxes.
    rewrite (has_shape_dim _ _ H1) by (apply swap_entries_positive; assumption).
    rewrite swap_entries_length.
    apply Nat.ltb_lt in Ha, H0. now rewrite Ha, H0. }
  unfold flip_axis. rewrite E1. cbn [bind]. rewrite E2.
  now rewrite (swap_reverse_swap a sh t).
Qed.

Lemma flip_trial_result (enabled : bool) (a : nat) (p : Q) (rnd : nat -> Q)
      (sh : list nat) (x : tensor) (yo : option tensor) (pos : nat) :
  has_shape sh x -> positive_dims sh = true -> (a < length sh)%nat ->
  (forall y, yo = Some y ->
             exists sh', has_shape sh' y /\ positive_dims sh' = true /\
                         (a < length sh')%nat) ->
  flip_trial enabled a p rnd (x, yo, pos) =
  Ret (flip_if (enabled && float_lt (rnd pos) p) a x,
       option_map (flip_if (enabled && float_lt (rnd pos) p) a) yo,
       if enabled then S pos else pos).
Proof.
  intros Hx Px Ha Hy. unfold flip_trial.
  destruct enabled; [| now destruct yo]. cbn [andb].
  destruct (float_lt (rnd pos) p); [| now destruct yo].
  unfold flip_streams. rewrite (flip_axis_is_reverse_axis a sh x Hx Px Ha).
  cbn [bind]. destruct yo as [y |]; [| reflexivity].
  destruct (Hy y eq_refl) as (sh' & Hy' & Py' & Ha').
  rewrite (flip_axis_is_reverse_axis a sh' y Hy' Py' Ha'). reflexivity.
Qed.

Lemma has_shape_flip_if (b : bool) (a : nat) (sh : list nat) (t : tensor) :
  has_shape sh t -> has_shape sh (flip_if b a t).
Proof.
  intros Ht. destruct b; [now apply has_shape_reverse_axis | exact Ht].
Qed.

(** X17: [RandomFlip] calls [random.random()] once for each enabled
    direction, the horizontal one first, whether [y] is present or not; a
    draw below [p] reverses axis 2 (horizontal) or axis 1 (vertical) of [x]
    and of [y] alike, any other draw leaves both as they are; the shapes
    are kept. *)
Theorem RandomFlip_one_decision_for_both_streams
        (self : RandomFlip) (rnd : nat -> Q) (pos : nat)
        (sh sh' : list nat) (x y : tensor) :
  has_shape sh x -> has_shape sh' y ->
  positive_dims sh = true -> positive_dims sh' = true ->
  length sh = 3%nat -> length sh' = 3%nat ->
  let pos1 := if horizontal self then S pos else pos in
  let pos2 := if vertical self then S pos1 else pos1 in
  let fh := horizontal self && float_lt (rnd pos) (p self) in
  let fv := vertical self && float_lt (rnd pos1) (p self) in
  let flip := fun t => flip_if fv 1 (flip_if fh 2 t) in
  RandomFlip_call self rnd pos (PTensor x) (PTensor y) =
    Ret (PPair (PTensor (flip x)) (PTensor (flip y)), pos2) /\
  RandomFlip_call self rnd pos (PTensor x) PNone = Ret (PTensor (flip x), pos2) /\
  has_shape sh (flip x) /\ has_shape sh' (flip y).
Proof.
  intros Hx Hy Px Py Lx Ly pos1 pos2 fh fv flip.
  assert (T1 : forall yo,
             (forall y0, yo = Some y0 -> y0 = y) ->
             flip_trial (horizontal self) 2 (p self) rnd (x, yo, pos) =
             Ret (flip_if fh 2 x, option_map (flip_if fh 2) yo, pos1)).
  { intros yo Hyo. apply (flip_trial_result _ 2 _ _ sh); auto; [lia |].
    intros y0 E. rewrite (Hyo y0 E). exists sh'. repeat split; auto. lia. }
  assert (T2 : forall yo,
             (forall y0, yo = Some y0 -> y0 = flip_if fh 2 y) ->
             flip_trial (vertical self) 1 (p self) rnd (flip_if fh 2 x, yo, pos1) =
             Ret (flip x, option_map (flip_if fv 1) yo, pos2)).
  { intros yo Hyo.
    apply (flip_trial_result _ 1 _ _ sh); auto;
      [now apply has_shape_flip_if | lia |].
    intros y0 E. rewrite (Hyo y0 E). exists sh'.
    repeat split; auto; [now apply has_shape_flip_if | lia]. }
  split; [| split; [| split; now repeat apply has_shape_flip_if]].
  - unfold RandomFlip_call. cbn [method bind is_none].
    rewrite (T1 (Some y)) by (intros y0 E; now injection E).
    cbn [bind option_map].
    rewrite (T2 (Some (flip_if fh 2 y))) by (intros y0 E; now injection E).
    reflexivity.
  - unfold RandomFlip_call. cbn [method bind is_none].
    rewrite (T1 None) by discriminate.
    cbn [bind option_map].
    rewrite (T2 None) by discriminate.
    reflexivity.
Qed.

Lemma float_lt_one (u : Q) : (u < 1)%Q -> float_lt u 1 = true.
Proof.
  intros Hu. unfold float_lt. apply negb_true_iff.
  destruct (Qle_bool 1 u) eqn:E; [| reflexivity].
  apply Qle_bool_iff in E. lra.
Qed.

Lemma float_lt_zero (u : Q) : (0 <= u)%Q -> float_lt u 0 = false.
Proof.
  intros Hu. unfold float_lt. apply negb_false_iff. now apply Qle_bool_iff.
Qed.

(** X18: the draws of [random.random()] lie in [[0, 1)].  With [p = 1]
    every enabled direction is flipped, so a horizontal flip applied twice
    gives the image back; with [p = 0] nothing is ever flipped and the
    input is returned as it is. *)
Theorem RandomFlip_certain_and_impossible
        (rnd : nat -> Q) (pos : nat) (sh : list nat) (x : tensor) :
  (forall i, (0 <= rnd i < 1)%Q) ->
  has_shape sh x -> positive_dims sh = true -> length sh = 3%nat ->
  let always := {| horizontal := true; vertical := false; p := 1 |} in
  RandomFlip_call always rnd pos (PTensor x) PNone =
    Ret (PTensor (reverse_axis 2 x), S pos) /\
  RandomFlip_call always rnd (S pos) (PTensor (reverse_axis 2 x)) PNone =
    Ret (PTensor x, S (S pos)) /\
  (forall h v : bool,
      exists pos',
        RandomFlip_call {| horizontal := h; vertical := v; p := 0 |}
                        rnd pos (PTensor x) PNone = Ret (PTensor x, pos')).
Proof.
  intros Hrnd Hx Px Lx always.
  assert (F : forall (self : RandomFlip) (q : nat) (t : tensor),
             has_shape sh t ->
             RandomFlip_call self rnd q (PTensor t) PNone =
             Ret (PTensor
                    (flip_if (vertical self &&
                              float_lt (rnd (if horizontal self then S q else q)) (p self))
                             1
                             (flip_if (horizontal self && float_lt (rnd q) (p self)) 2 t)),
                  if vertical self then S (if horizontal self then S q else q)
                  else if horizontal self then S q else q)).
  { intros self q t Ht. unfold RandomFlip_call. cbn [method bind is_none].
    rewrite (flip_trial_result _ 2 _ _ sh) by (auto; try lia; discriminate).
    cbn [bind option_map].
    rewrite (flip_trial_result _ 1 _ _ sh)
      by (auto; try lia; try discriminate; now apply has_shape_flip_if).
    reflexivity. }
  split; [| split].
  - rewrite (F always pos x Hx). cbn [always horizontal vertical p andb].
    rewrite float_lt_one by apply Hrnd. reflexivity.
  - rewrite (F always (S pos) _ (has_shape_reverse_axis 2 sh x Hx)).
    cbn [always horizontal vertical p andb].
    rewrite float_lt_one by apply Hrnd. cbn [flip_if].
    now rewrite reverse_axis_involutive.
  - intros h v. eexists. rewrite (F _ pos x Hx). cbn [horizontal vertical p].
    rewrite !float_lt_zero by apply Hrnd.
    rewrite !andb_false_r. reflexivity.
Qed.

(** ** ToFile *)

Lemma list_ascii_of_string_append (s t : string) :
  list_ascii_of_string (s ++ t) = list_ascii_of_string s ++ list_ascii_of_string t.
Proof. induction s as [| c s IH]; cbn; [reflexivity | now rewrite IH]. Qed.

Lemma list_ascii_of_string_inj (s t : string) :
  list_ascii_of_string s = list_ascii_of_string t -> s = t.
Proof.
  intros E. rewrite <- (string_of_list_ascii_of_string s),
              <- (string_of_list_ascii_of_string t). now rewrite E.
Qed.

Lemma append_inv_head (p s t : string) : (p ++ s = p ++ t)%string -> s = t.
Proof.
  induction p as [| c p IH]; cbn; [auto |]. intros E. injection E. exact IH.
Qed.

Lemma append_inv_tail (s t q : string) : (s ++ q = t ++ q)%string -> s = t.
Proof.
  intros E. apply list_ascii_of_string_inj.
  apply (f_equal list_ascii_of_string) in E.
  rewrite !list_ascii_of_string_append in E.
  now apply app_inv_tail in E.
Qed.

Lemma percent_i_inj (n m : nat) : percent_i n = percent_i m -> n = m.
Proof.
  unfold percent_i. intros E.
  apply DecimalNat.Unsigned.to_uint_inj.
  apply (f_equal NilEmpty.uint_of_string) in E.
  rewrite !NilEmpty.usu in E. now injection E.
Qed.

Lemma path_join_inj (a b c : string) : path_join a b = path_join a c -> b = c.
Proof.
  unfold path_join. destruct (needs_separator a); intros E.
  - apply append_inv_head in E. now apply append_inv_head in E.
  - now apply append_inv_head in E.
Qed.

Lemma x_path_of_inj (r : string) (n m : nat) : x_path_of r n = x_path_of r m -> n = m.
Proof.
  unfold x_path_of. intros E. apply path_join_inj, append_inv_head in E.
  now apply append_inv_tail, percent_i_inj in E.
Qed.

Lemma y_path_of_inj (r : string) (n m : nat) : y_path_of r n = y_path_of r m -> n = m.
Proof.
  unfold y_path_of. intros E. apply path_join_inj, append_inv_head in E.
  now apply append_inv_tail, percent_i_inj in E.
Qed.

Lemma x_path_is_not_y_path (r : string) (n m : nat) : x_path_of r n <> y_path_of r m.
Proof.
  unfold x_path_of, y_path_of. intros E. apply path_join_inj in E.
  cbn in E. discriminate E.
Qed.

Lemma ToFile_run_written (samples : list (tensor * option tensor)) :
  forall self fs,
    ToFile_run self fs samples =
    ({| root := root self; save_format := save_format self;
        counter := counter self + length samples |},
     written (root self) (counter self) samples ++ fs).
Proof.
  induction samples as [| [x yo] rest IH]; intros self fs.
  - cbn [ToFile_run length written app]. rewrite Nat.add_0_r. now destruct self.
  - cbn [ToFile_run length written].
    destruct yo as [y |]; cbn [ToFile_call is_none];
      rewrite IH; cbn [bump root save_format counter Nat.add];
      rewrite Nat.add_succ_r, <- app_assoc; reflexivity.
Qed.

Lemma written_paths (r : string) (samples : list (tensor * option tensor)) :
  forall c path,
    In path (map fst (written r c samples)) ->
    exists j, (c <= j < c + length samples)%nat /\
              (path = x_path_of r j \/ path = y_path_of r j).
Proof.
  induction samples as [| [x yo] rest IH]; intros c path Hin; [contradiction |].
  cbn [written length] in *. rewrite map_app, in_app_iff in Hin.
  destruct Hin as [Hin | Hin].
  - destruct (IH (S c) path Hin) as (j & Hj & Hp). exists j. split; [lia | exact Hp].
  - exists c. split; [lia |].
    destruct yo as [y |]; cbn in Hin; intuition congruence.
Qed.

Lemma written_NoDup (r : string) (samples : list (tensor * option tensor)) :
  forall c, NoDup (map fst (written r c samples)).
Proof.
  induction samples as [| [x yo] rest IH]; intros c; [constructor |].
  cbn [written]. rewrite map_app. apply NoDup_app.
  - apply IH.
  - destruct yo as [y |]; cbn [map fst].
    + constructor; [| constructor; [intros [] | constructor]].
      intros [E | []]. now apply x_path_is_not_y_path in E.
    + constructor; [intros [] | constructor].
  - intros path Hin Hc.
    destruct (written_paths r rest (S c) path Hin) as (j & Hj & Hp).
    assert (Hc' : path = x_path_of r c \/ path = y_path_of r c).
    { destruct yo as [y |]; cbn in Hc; intuition congruence. }
    destruct Hp as [-> | ->], Hc' as [E | E].
    + apply x_path_of_inj in E. lia.
    + now apply x_path_is_not_y_path in E.
    + symmetry in E. now apply x_path_is_not_y_path in E.
    + apply y_path_of_inj in E. lia.
Qed.

Lemma written_In (r : string) (samples : list (tensor * option tensor)) :
  forall c k x yo,
    nth_error samples k = Some (x, yo) ->
    In (x_path_of r (c + k), x) (written r c samples) /\
    (forall y, yo = Some y -> In (y_path_of r (c + k), y) (written r c samples)).
Proof.
  induction samples as [| [x0 yo0] rest IH]; intros c k x yo Hk;
    [destruct k; discriminate |].
  cbn [written]. destruct k as [| k]; cbn [nth_error] in Hk.
  - injection Hk as -> ->. rewrite Nat.add_0_r. split.
    + apply in_or_app. right. destruct yo; cbn; auto.
    + intros y ->. apply in_or_app. right. cbn. auto.
  - destruct (IH (S c) k x yo Hk) as [Hx Hy].
    replace (c + S k)%nat with (S c + k)%nat by lia. split.
    + apply in_or_app. now left.
    + intros y E. apply in_or_app. left. now apply Hy.
Qed.

Lemma read_file_In (l fs : files) (path : string) (t : tensor) :
  NoDup (map fst l) -> In (path, t) l -> read_file (l ++ fs) path = Some t.
Proof.
  induction l as [| [q u] l IH]; intros Hnd Hin; [contradiction |].
  cbn [map fst] in Hnd. inversion Hnd as [| ? ? Hq Hl]; subst.
  cbn [app read_file].
  destruct Hin as [E | Hin].
  - injection E as -> ->. now rewrite String.eqb_refl.
  - destruct (String.eqb_spec q path) as [-> | Hne]; [| now apply IH].
    exfalso. apply Hq. apply (in_map fst) in Hin. exact Hin.
Qed.

(** X19: a run of [ToFile] over [n] samples advances the counter by [n],
    and no two writes of the run go to the same path: the files of the
    sample with index [k] are [x_img-<k>.npy] and [y_img-<k>.npy] under
    the root, and reading them back after the run gives the sample's [x]
    and [y]. *)
Theorem ToFile_run_never_overwrites
        (self : ToFile) (fs : files) (samples : list (tensor * option tensor)) :
  let self' := fst (ToFile_run self fs samples) in
  let fs' := snd (ToFile_run self fs samples) in
  counter self' = (counter self + length samples)%nat /\
  root self' = root self /\
  (exists new, fs' = new ++ fs /\ NoDup (map fst new)) /\
  (forall k x yo,
      nth_error samples k = Some (x, yo) ->
      read_file fs' (x_path_of (root self) (counter self + k)) = Some x /\
      (forall y, yo = Some y ->
                 read_file fs' (y_path_of (root self) (counter self + k)) = Some y)).
Proof.
  cbv zeta. rewrite ToFile_run_written. cbn [fst snd counter root].
  split; [reflexivity |]. split; [reflexivity |].
  split.
  { eexists. split; [reflexivity | apply written_NoDup]. }
  intros k x yo Hk.
  destruct (written_In (root self) samples (counter self) k x yo Hk) as [Hx Hy].
  split.
  - apply read_file_In; [apply written_NoDup | exact Hx].
  - intros y E. apply read_file_In; [apply written_NoDup | now apply Hy].
Qed.

(** ** UnitRange *)

Lemma unit_interval (mn mx e : Q) :
  (mn <= e)%Q -> (e <= mx)%Q -> ~ (mn == mx)%Q ->
  let v := Qred (fsub e mn / fsub mx mn) in
  (0 <= v <= 1)%Q /\ ((e == mn)%Q -> (v == 0)%Q) /\ ((e == mx)%Q -> (v == 1)%Q).
Proof.
  intros Hmn Hmx Hne v.
  assert (HD : (0 < mx - mn)%Q) by lra.
  assert (Ev : (v == (e - mn) / (mx - mn))%Q).
  { unfold v, fsub. now rewrite !Qred_correct. }
  split; [rewrite Ev; split |]; [| | split].
  - apply Qle_shift_div_l; lra.
  - apply Qle_shift_div_r; lra.
  - intros Ee. rewrite Ev, Ee. field. lra.
  - intros Ee. rewrite Ev, Ee. field. lra.
Qed.

(** X20: [UnitRange] sends a tensor that is not constant to a tensor of
    the same shape with all values in [[0, 1]], its minimum to 0 and its
    maximum to 1.  For a constant tensor the divisor is zero and the result
    has no finite value. *)
Theorem UnitRange_lands_in_unit_interval (x : tensor) :
  flatten x <> [] ->
  exists mn mx : Q,
    tmin x = Ret mn /\ tmax x = Ret mx /\
    (~ (mn == mx)%Q ->
     exists xn : tensor,
       UnitRange_call (PTensor x) PNone = Ret (Some (PTensor xn)) /\
       shape xn = shape x /\
       Forall (fun v => (0 <= v <= 1)%Q) (flatten xn) /\
       Exists (fun v => (v == 0)%Q) (flatten xn) /\
       Exists (fun v => (v == 1)%Q) (flatten xn)) /\
    ((mn == mx)%Q -> UnitRange_call (PTensor x) PNone = Ret None).
Proof.
  intros Hne.
  destruct (flatten x) as [| v0 vs] eqn:Hfl; [congruence |].
  set (mn := fold_left qmin vs v0). set (mx := fold_left qmax vs v0).
  destruct (fold_qmin_spec vs v0) as [Hmn_in Hmn_le].
  destruct (fold_qmax_spec vs v0) as [Hmx_in Hmx_le].
  fold mn in Hmn_in, Hmn_le. fold mx in Hmx_in, Hmx_le.
  rewrite Forall_forall in Hmn_le, Hmx_le.
  assert (Emin : tmin x = Ret mn) by (unfold tmin; now rewrite Hfl).
  assert (Emax : tmax x = Ret mx) by (unfold tmax; now rewrite Hfl).
  assert (Ecall : UnitRange_call (PTensor x) PNone =
                  Ret (option_map PTensor
                         (tdiv (tmap (fun e => fsub e mn) x) (fsub mx mn)))).
  { unfold UnitRange_call, unit_range_of. cbn [method bind is_none].
    rewrite Emin, Emax. reflexivity. }
  exists mn, mx. split; [exact Emin |]. split; [exact Emax |].
  split.
  - intros Hneq.
    assert (Ed : Qeq_bool (fsub mx mn) 0 = false).
    { destruct (Qeq_bool (fsub mx mn) 0) eqn:E; [| reflexivity].
      apply Qeq_bool_iff in E. unfold fsub in E. rewrite Qred_correct in E.
      exfalso. apply Hneq. lra. }
    set (f := fun e => Qred (fsub e mn / fsub mx mn)).
    assert (Hf : forall e, In e (v0 :: vs) ->
                   (0 <= f e <= 1)%Q /\ ((e == mn)%Q -> (f e == 0)%Q) /\
                   ((e == mx)%Q -> (f e == 1)%Q)).
    { intros e He. apply unit_interval; auto. }
    exists (tmap (fun e => Qred (e / fsub mx mn)) (tmap (fun e => fsub e mn) x)).
    split; [rewrite Ecall; unfold tdiv; now rewrite Ed |].
    split; [now rewrite !shape_tmap |].
    rewrite !flatten_tmap, Hfl, map_map. fold f.
    split.
    { apply Forall_forall. intros v Hv. apply in_map_iff in Hv.
      destruct Hv as (e & <- & He). apply (Hf e He). }
    split.
    { apply Exists_exists. exists (f mn). split; [now apply in_map |].
      apply (Hf mn Hmn_in). reflexivity. }
    apply Exists_exists. exists (f mx). split; [now apply in_map |].
    apply (Hf mx Hmx_in). reflexivity.
  - intros Heq.
    assert (Ed : Qeq_bool (fsub mx mn) 0 = true).
    { apply Qeq_bool_iff. unfold fsub. rewrite Qred_correct. lra. }
    rewrite Ecall. unfold tdiv. now rewrite Ed.
Qed.

(** ** RandomOrder on as many channels as axes *)

Lemma select_all_in_range {A : Type} (l : list A) (d : A) (order : list nat) :
  Forall (fun i => (i < length l)%nat) order ->
  select_all l order = Ret (map (fun i => nth i l d) order).
Proof.
  induction 1 as [| i order Hi Hrest IH]; cbn [select_all map]; [reflexivity |].
  rewrite (nth_error_nth' l d Hi), IH. reflexivity.
Qed.

Lemma permutation_of_seq_in_range (n : nat) (order : list nat) :
  Permutation (seq 0 n) order -> Forall (fun i => (i < n)%nat) order.
Proof.
  intros Hp. apply Forall_forall. intros i Hi.
  apply (Permutation_in _ (Permutation_sym Hp)) in Hi.
  apply in_seq in Hi. lia.
Qed.

Lemma permuted_channels {A : Type} (l : list A) (d : A) (order : list nat) :
  Permutation (seq 0 (length l)) order ->
  Permutation l (map (fun i => nth i l d) order).
Proof.
  intros Hp. rewrite <- (map_nth_seq l d) at 1. now apply Permutation_map.
Qed.

(** X21: on a tensor with as many channels as axes (an RGB image of
    shape [(3, H, W)]), every outcome of [RandomOrder] holds the channels
    of [x] in a permuted order, and the channels of [y] in that same
    order. *)
Theorem RandomOrder_permutes_channels_when_axes_match
        (sh sh' : list nat) (l ly : list tensor) :
  has_shape (S (length sh) :: sh) (Node l) ->
  has_shape (S (length sh) :: sh') (Node ly) ->
  positive_dims sh = true ->
  outcomes (RandomOrder_call (PTensor (Node l)) (PTensor (Node ly))) <> [] /\
  Forall (fun r =>
            exists order,
              Permutation (seq 0 (length l)) order /\
              r = Ok (PPair
                        (PTensor (Node (map (fun i => nth i l (Scalar 0)) order)))
                        (PTensor (Node (map (fun i => nth i ly (Scalar 0)) order)))) /\
              Permutation l (map (fun i => nth i l (Scalar 0)) order) /\
              Permutation ly (map (fun i => nth i ly (Scalar 0)) order))
         (outcomes (RandomOrder_call (PTensor (Node l)) (PTensor (Node ly)))).
Proof.
  intros Hx Hy Hpos.
  assert (Px : positive_dims (S (length sh) :: sh) = true) by (cbn; exact Hpos).
  assert (Dx : dim (Node l) = S (length sh)) by (rewrite (has_shape_dim _ _ Hx Px); reflexivity).
  assert (Ll : length l = S (length sh)).
  { unfold has_shape in Hx. cbn [has_shapeb] in Hx.
    apply andb_prop in Hx. destruct Hx as [Hl _]. now apply Nat.eqb_eq in Hl. }
  assert (Lly : length ly = S (length sh)).
  { unfold has_shape in Hy. cbn [has_shapeb] in Hy.
    apply andb_prop in Hy. destruct Hy as [Hl _]. now apply Nat.eqb_eq in Hl. }
  unfold RandomOrder_call, randperm. cbn [method bind is_none outcomes].
  rewrite Dx, <- Ll.
  match goal with |- context [flat_map ?f _] => set (F := f) end.
  assert (Hone : forall order,
             In order (perms (length l)) ->
             Permutation (seq 0 (length l)) order /\
             F order =
             [Ok (PPair
                    (PTensor (Node (map (fun i => nth i l (Scalar 0)) order)))
                    (PTensor (Node (map (fun i => nth i ly (Scalar 0)) order))))]).
  { intros order Hord. apply perms_sound in Hord. split; [exact Hord |].
    pose proof (permutation_of_seq_in_range _ _ Hord) as Hrange.
    unfold F, index_select0. cbn [bind].
    rewrite (select_all_in_range l (Scalar 0) order Hrange).
    cbn [bind].
    rewrite (select_all_in_range ly (Scalar 0) order)
      by (rewrite Lly, <- Ll; exact Hrange).
    reflexivity. }
  split.
  { destruct (perms (length l)) as [| p0 ps] eqn:Ep.
    - exfalso. unfold perms in Ep. clear -Ep.
      assert (Hne : forall q, perms_of q <> []).
      { induction q as [| a q IH]; cbn [perms_of]; [discriminate |].
        destruct (perms_of q) as [| p1 ps1]; [congruence |].
        cbn [flat_map]. destruct p1; discriminate. }
      now apply (Hne (seq 0 (length l))).
    - cbn [flat_map]. destruct (Hone p0 (or_introl eq_refl)) as [_ E].
      rewrite E. discriminate. }
  apply Forall_forall. intros r Hr. apply in_flat_map in Hr.
  destruct Hr as (order & Hord & Hr).
  destruct (Hone order Hord) as [Hperm E]. rewrite E in Hr.
  destruct Hr as [<- | []].
  exists order. split; [exact Hperm |]. split; [reflexivity |].
  split; [now apply permuted_channels |].
  apply permuted_channels. now rewrite Lly, <- Ll.
Qed.

(** ** The further properties at concrete inputs *)

Lemma Compose_of_units_is_a_unit_witness :
  Forall one_stream [RandomCrop [2; 2]; with_default (Pad_call [1; 3; 3]%Q)] /\
  Forall two_stream [RandomCrop [2; 2]; with_default (Pad_call [1; 3; 3]%Q)] /\
  one_stream (Compose [RandomCrop [2; 2]; with_default (Pad_call [1; 3; 3]%Q)]) /\
  two_stream (Compose [RandomCrop [2; 2]; with_default (Pad_call [1; 3; 3]%Q)]).
Proof.
  assert (H1 : Forall one_stream
                      [RandomCrop [2; 2]; with_default (Pad_call [1; 3; 3]%Q)]).
  { constructor; [apply RandomCrop_one_stream |].
    constructor; [apply Pad_one_stream | constructor]. }
  assert (H2 : Forall two_stream
                      [RandomCrop [2; 2]; with_default (Pad_call [1; 3; 3]%Q)]).
  { constructor; [apply RandomCrop_two_stream |].
    constructor; [apply Pad_two_stream | constructor]. }
  split; [exact H1 |]. split; [exact H2 |].
  exact (Compose_of_units_is_a_unit _ H1 H2).
Defined.

Lemma Compose_two_stream_concat_witness :
  Forall two_stream [ToCuda 0] /\
  Meq (Compose_call ([ToCuda 0] ++ [RandomCrop [2; 2]]) (PTensor grid3) (PTensor grid3))
      (r <- Compose [ToCuda 0] (PTensor grid3) (Some (PTensor grid3));;
       apply_to_result (Compose [RandomCrop [2; 2]]) r).
Proof.
  assert (H1 : Forall two_stream [ToCuda 0]).
  { constructor; [apply ToCuda_two_stream | constructor]. }
  split; [exact H1 |].
  exact (Compose_two_stream_concat [ToCuda 0] [RandomCrop [2; 2]] grid3 grid3 H1).
Defined.

Lemma RandomCrop_oversize_raises_witness :
  has_shape [1; 3; 3]%nat grid3 /\ positive_dims [1; 3; 3]%nat = true /\
  Z.of_nat 3 < 5 /\
  RandomCrop_call [5; 2] (PTensor grid3) PNone = Raise ValueError.
Proof.
  split; [reflexivity |]. split; [reflexivity |]. split; [lia |].
  apply (proj1 (RandomCrop_oversize_raises 1 3 3 5 2 [] grid3 PNone eq_refl eq_refl)).
  lia.
Defined.

Lemma SpecialCrop_window_of_crop_size_witness :
  has_shape [1; 3; 3]%nat grid3 /\ 0 <= 2 <= Z.of_nat 3 /\ 0 <= 3 <= 4 /\
  SpecialCrop_init [2; 2] 3 = Ret {| crop_size := [2; 2]; crop_type := 3 |}.
Proof.
  split; [reflexivity |]. split; [lia |]. split; [lia |].
  apply (proj1 (SpecialCrop_window_of_crop_size
                  1 1 3 3 2 2 3 [] grid3 grid3 eq_refl eq_refl eq_refl eq_refl
                  ltac:(lia) ltac:(lia) ltac:(lia))).
Defined.

Lemma Pad_at_or_above_target_is_identity_witness :
  has_shape [1; 3; 3]%nat grid3 /\
  Forall2 (fun d tgt => (tgt <= inject_Z (Z.of_nat d))%Q) [1; 3; 3]%nat [1; 2; 3]%Q /\
  Pad_call [1; 2; 3]%Q (PTensor grid3) PNone = Ret (PTensor grid3).
Proof.
  assert (Hle : Forall2 (fun d tgt => (tgt <= inject_Z (Z.of_nat d))%Q)
                        [1; 3; 3]%nat [1; 2; 3]%Q).
  { repeat constructor; vm_compute; discriminate. }
  split; [reflexivity |]. split; [exact Hle |].
  apply (proj1 (Pad_at_or_above_target_is_identity
                  [1; 3; 3]%nat [1; 2; 3]%Q grid3 grid3 eq_refl eq_refl eq_refl Hle)).
Defined.

Lemma Pad_twice_is_Pad_once_witness :
  has_shape [1; 3; 3]%nat grid3 /\
  exists x',
    Pad_call [1; 4; 5]%Q (PTensor grid3) PNone = Ret (PTensor x') /\
    Pad_call [1; 4; 5]%Q (PTensor x') PNone = Ret (PTensor x').
Proof.
  split; [reflexivity |].
  exact (Pad_twice_is_Pad_once [1; 3; 3]%nat [1; 4; 5]%Q grid3 eq_refl eq_refl eq_refl).
Defined.


Lemma AddChannel_inserts_unit_axis_witness :
  has_shape [2; 2]%nat matrix22 /\
  AddChannel_call 0 (PTensor matrix22) PNone = Ret (PTensor (Node [matrix22])) /\
  AddChannel_call 3 (PTensor matrix22) PNone = Raise RuntimeError.
Proof.
  split; [reflexivity |].
  destruct (AddChannel_inserts_unit_axis
              0 [2; 2]%nat [2; 2]%nat matrix22 matrix22
              eq_refl eq_refl eq_refl eq_refl) as [Hin _].
  destruct (AddChannel_inserts_unit_axis
              3 [2; 2]%nat [2; 2]%nat matrix22 matrix22
              eq_refl eq_refl eq_refl eq_refl) as [_ Hout].
  destruct (Hin ltac:(cbn; lia) ltac:(cbn; lia)) as (_ & H1 & _).
  split; [exact H1 |].
  apply Hout. cbn. lia.
Defined.

Lemma Slice2D_one_index_for_both_streams_witness :
  has_shape [1; 3; 3]%nat grid3 /\
  exists cont,
    Slice2D_loop 1 {| axis := 1; reject_zeros := false |} (PTensor grid3) (PTensor grid3) =
      RandInt 0 2 cont /\
    cont 2 = Ret (Some (PPair (PTensor (select_at 1 2 grid3))
                              (PTensor (select_at 1 2 grid3)))).
Proof.
  split; [reflexivity |].
  destruct (Slice2D_one_index_for_both_streams
              0 1 [1; 3; 3]%nat 3 grid3 grid3
              eq_refl eq_refl eq_refl eq_refl ltac:(lia) eq_refl)
    as (cont & Htree & Hk).
  exists cont. split; [exact Htree |].
  apply (Hk 2). lia.
Defined.

Lemma Slice2D_other_axis_never_returns_witness :
  (3 <> 0 /\ 3 <> 1 /\ 3 <> 2) /\
  leaves (fun _ => False)
         (Slice2D_loop 1 {| axis := 3; reject_zeros := false |} (PTensor grid3) PNone).
Proof.
  split; [lia |].
  apply (proj1 (Slice2D_other_axis_never_returns
                  0 {| axis := 3; reject_zeros := false |} (PTensor grid3) PNone
                  ltac:(cbn; lia) ltac:(cbn; lia) ltac:(cbn; lia))).
Defined.


Lemma Transpose_exchanges_two_axes_witness :
  has_shape [1; 3; 3]%nat grid3 /\
  Transpose_call 1 2 (PTensor (swapaxes 1 2 grid3)) (PTensor (swapaxes 1 2 grid3)) =
    Ret (PPair (PTensor grid3) (PTensor grid3)) /\
  Transpose_call 1 3 (PTensor grid3) PNone = Raise RuntimeError.
Proof.
  split; [reflexivity |].
  destruct (Transpose_exchanges_two_axes
              1 2 [1; 3; 3]%nat [1; 3; 3]%nat grid3 grid3
              eq_refl eq_refl eq_refl eq_refl) as [Hin _].
  destruct (Transpose_exchanges_two_axes
              1 3 [1; 3; 3]%nat [1; 3; 3]%nat grid3 grid3
              eq_refl eq_refl eq_refl eq_refl) as [_ Hout].
  destruct (Hin ltac:(cbn; lia) ltac:(cbn; lia) ltac:(cbn; lia) ltac:(cbn; lia))
    as (_ & _ & _ & _ & _ & Hback).
  split; [exact Hback |].
  apply Hout. right. cbn. lia.
Defined.

Lemma ChannelsLast_then_ChannelsFirst_witness :
  has_shape [1; 3; 3]%nat grid3 /\
  exists x' y' : tensor,
    ChannelsLast_call false (PTensor grid3) (PTensor grid3) =
      Ret (PPair (PTensor x') (PTensor y')) /\
    has_shape [3; 3; 1]%nat x' /\
    ChannelsFirst_call false (PTensor x') (PTensor y') =
      Ret (PPair (PTensor grid3) (PTensor grid3)).
Proof.
  split; [reflexivity |].
  destruct (ChannelsLast_then_ChannelsFirst
              1 1 [3; 3]%nat [3; 3]%nat grid3 grid3
              eq_refl eq_refl eq_refl eq_refl eq_refl)
    as (x' & y' & H1 & _ & H3 & _ & _ & H6 & _).
  exists x', y'. split; [exact H1 |]. split; [exact H3 | exact H6].
Defined.

Lemma ChannelsFirst_then_ChannelsLast_witness :
  has_shape ([1; 3] ++ [3])%nat grid3 /\
  exists x' : tensor,
    ChannelsFirst_call false (PTensor grid3) PNone = Ret (PTensor x') /\
    has_shape [3; 1; 3]%nat x' /\
    ChannelsLast_call false (PTensor x') PNone = Ret (PTensor grid3).
Proof.
  split; [reflexivity |].
  destruct (ChannelsFirst_then_ChannelsLast 3 [1; 3]%nat grid3 eq_refl eq_refl)
    as (x' & H1 & H2 & _ & H4).
  exists x'. split; [exact H1 |]. split; [exact H2 | exact H4].
Defined.

Lemma ChannelsLast_safe_check_witness :
  has_shape [1; 3; 3]%nat grid3 /\ (1 <= 3)%nat /\
  exists x' : tensor,
    ChannelsLast_call true (PTensor grid3) PNone = Ret (PTensor x') /\
    has_shape [3; 3; 1]%nat x' /\
    ChannelsLast_call true (PTensor x') PNone = Ret (PTensor x').
Proof.
  split; [reflexivity |]. split; [lia |].
  destruct (ChannelsLast_safe_check 1 3 3 grid3 eq_refl eq_refl) as [Hconv _].
  destruct (Hconv ltac:(lia)) as (x' & H1 & _ & H3 & H4).
  exists x'. split; [exact H1 |]. split; [exact H3 |].
  apply H4. lia.
Defined.

Lemma RandomFlip_one_decision_for_both_streams_witness :
  has_shape [1; 3; 3]%nat grid3 /\
  RandomFlip_call {| horizontal := true; vertical := true; p := 1 # 2 |}
                  quarter_stream 0 (PTensor grid3) (PTensor grid3) =
    Ret (PPair (PTensor (reverse_axis 1 (reverse_axis 2 grid3)))
               (PTensor (reverse_axis 1 (reverse_axis 2 grid3))), 2%nat).
Proof.
  split; [reflexivity |].
  destruct (RandomFlip_one_decision_for_both_streams
              {| horizontal := true; vertical := true; p := 1 # 2 |}
              quarter_stream 0 [1; 3; 3]%nat [1; 3; 3]%nat grid3 grid3
              eq_refl eq_refl eq_refl eq_refl eq_refl eq_refl) as (H1 & _).
  exact H1.
Defined.

Lemma RandomFlip_certain_and_impossible_witness :
  (forall i, (0 <= quarter_stream i < 1)%Q) /\
  RandomFlip_call {| horizontal := true; vertical := false; p := 1 |}
                  quarter_stream 0 (PTensor grid3) PNone =
    Ret (PTensor (reverse_axis 2 grid3), 1%nat).
Proof.
  assert (Hq : forall i, (0 <= quarter_stream i < 1)%Q).
  { intros i. unfold quarter_stream. split; [discriminate | reflexivity]. }
  split; [exact Hq |].
  destruct (RandomFlip_certain_and_impossible
              quarter_stream 0 [1; 3; 3]%nat grid3 Hq eq_refl eq_refl eq_refl)
    as (H1 & _).
  exact H1.
Defined.

Lemma UnitRange_lands_in_unit_interval_witness :
  flatten grid3 <> [] /\
  exists mn mx : Q,
    tmin grid3 = Ret mn /\ tmax grid3 = Ret mx /\
    (~ (mn == mx)%Q ->
     exists xn : tensor,
       UnitRange_call (PTensor grid3) PNone = Ret (Some (PTensor xn)) /\
       shape xn = shape grid3 /\
       Forall (fun v => (0 <= v <= 1)%Q) (flatten xn) /\
       Exists (fun v => (v == 0)%Q) (flatten xn) /\
       Exists (fun v => (v == 1)%Q) (flatten xn)) /\
    ((mn == mx)%Q -> UnitRange_call (PTensor grid3) PNone = Ret None).
Proof.
  assert (Hne : flatten grid3 <> []) by discriminate.
  split; [exact Hne |].
  exact (UnitRange_lands_in_unit_interval grid3 Hne).
Defined.

Lemma RandomOrder_permutes_channels_when_axes_match_witness :
  has_shape [3; 2; 2]%nat (Node rgb_channels) /\
  outcomes (RandomOrder_call (PTensor (Node rgb_channels))
                             (PTensor (Node rgb_channels))) <> [].
Proof.
  split; [reflexivity |].
  apply (proj1 (RandomOrder_permutes_channels_when_axes_match
                  [2; 2]%nat [2; 2]%nat rgb_channels rgb_channels
                  eq_refl eq_refl eq_refl)).
Defined.
